(** * DASH: collective reductions, asynchronous references, views and
      pattern metrics

    A shallow embedding of
    - [dash/algorithm/Accumulate.h]  (module [Accumulate]),
    - [dash/GlobAsyncRef.h]          (modules [GlobAsyncRef] and [Future]),
    - [dash/util/PatternMetrics.h]   (module [PatternMetrics]),
    - [dash/SharedCounter.h]         (module [SharedCounter]),
    - the [sub] view operation exercised by [dash/test/NViewTest.cc]
      (module [View]),
    together with the part of the DART transport these headers call
    (module [Dart]). *)

From Stdlib Require Import ZArith Lia.
From stdpp Require Import base option list strings gmap.

Local Open Scope Z_scope.

(** ** The DART transport, as far as the headers use it *)

Module Dart.

Inductive dart_ret_t := DART_OK | DART_ERR_INVAL | DART_ERR_OTHER.

#[export] Instance dart_ret_eq_dec : EqDecision dart_ret_t.
Proof. solve_decision. Defined.

(** Modelled from the spec: the predefined reductions of the transport
    (sum, product, min, max, logical and/or, bitwise and/or/xor); the
    enumeration itself is declared in the DART headers.  [DART_OP_CUSTOM]
    stands for an operation made by [dart_op_create]. *)
Inductive dart_operation_t :=
| DART_OP_UNDEFINED
| DART_OP_MIN | DART_OP_MAX | DART_OP_SUM | DART_OP_PROD
| DART_OP_BAND | DART_OP_LAND | DART_OP_BOR | DART_OP_LOR | DART_OP_BXOR
| DART_OP_CUSTOM.

(** Modelled from the spec: the transport's primitive element types;
    [DART_TYPE_CUSTOM] stands for a type made by
    [dart_type_create_custom]. *)
Inductive dart_datatype_t :=
| DART_TYPE_UNDEFINED
| DART_TYPE_BYTE | DART_TYPE_SHORT | DART_TYPE_INT | DART_TYPE_UINT
| DART_TYPE_LONG | DART_TYPE_ULONG | DART_TYPE_LONGLONG
| DART_TYPE_FLOAT | DART_TYPE_DOUBLE
| DART_TYPE_CUSTOM.

#[export] Instance dart_operation_eq_dec : EqDecision dart_operation_t.
Proof. solve_decision. Defined.

#[export] Instance dart_datatype_eq_dec : EqDecision dart_datatype_t.
Proof. solve_decision. Defined.

(** Modelled from the spec: [allreduce(sendbuf, recvbuf, count, dtype, op,
    team)] with [count = 1].  Every unit of the team receives the
    combination of all units' send buffers.  The buffers are combined in
    unit order; the operation is invoked as [op invec inoutvec], where
    [invec] is the partial result of the lower-ranked units, and yields the
    new [inoutvec].  A team has at least one unit (the caller); on no unit
    there is no call, hence [None]. *)
Definition dart_allreduce {A : Type} (op : A → A → A) (sendbufs : list A)
  : option A :=
  match sendbufs with
  | [] => None
  | b :: bs => Some (fold_left op bs b)
  end.

(** Modelled from the spec: the ways a transport may combine the send
    buffers of a team when the operation is declared commutative: as any
    binary tree over the buffers, taken in any order.  [dart_allreduce] is
    one of them. *)
Inductive reduces {A : Type} (op : A → A → A) : list A → A → Prop :=
| reduces_one b : reduces op [b] b
| reduces_app l1 l2 r1 r2 :
    reduces op l1 r1 → reduces op l2 r2 → reduces op (l1 ++ l2) (op r1 r2)
| reduces_perm l l' r :
    l ≡ₚ l' → reduces op l r → reduces op l' r.

Lemma fold_left_reduces {A} (op : A → A → A) (pre bs : list A) (b : A) :
  reduces op pre b → reduces op (pre ++ bs) (fold_left op bs b).
Proof.
  revert pre b. induction bs as [|c bs IH]; intros pre b Hpre; cbn.
  - by rewrite app_nil_r.
  - replace (pre ++ c :: bs) with ((pre ++ [c]) ++ bs)
      by (by rewrite <- app_assoc).
    apply IH.
    apply reduces_app; [done|constructor].
Qed.

Lemma dart_allreduce_reduces {A} (op : A → A → A) (bufs : list A) (r : A) :
  dart_allreduce op bufs = Some r → reduces op bufs r.
Proof.
  destruct bufs as [|b bs]; [done|]. intros [= <-].
  apply (fold_left_reduces op [b] bs b). constructor.
Qed.

(** Modelled from the spec: a global pointer is the triple (segment, unit,
    offset), the offset in bytes within the unit's local portion, held in
    an unsigned 64-bit field; a null value is distinguished.  The struct and
    [DART_GPTR_NULL] are declared in the DART headers. *)
Record dart_gptr_t := DartGptr {
  unitid : Z;
  segid : Z;
  addr_or_offs : Z
}.

#[export] Instance dart_gptr_eq_dec : EqDecision dart_gptr_t.
Proof. solve_decision. Defined.

Definition DART_GPTR_NULL : dart_gptr_t :=
  {| unitid := -1; segid := 0; addr_or_offs := 0 |}.

Definition DART_GPTR_ISNULL (gptr : dart_gptr_t) : bool :=
  bool_decide (gptr = DART_GPTR_NULL).

(** Modelled from the spec: [gptr_incaddr] advances the offset of a global
    pointer by a number of bytes ([increment_address(bytes)]), within the
    same segment and unit, and reports [DART_OK]. *)
Definition dart_gptr_incaddr (gptr : dart_gptr_t) (offs : Z)
  : dart_ret_t * dart_gptr_t :=
  (DART_OK,
   {| unitid := unitid gptr;
      segid := segid gptr;
      addr_or_offs := (addr_or_offs gptr + offs) mod 2 ^ 64 |}).

(** How a call wrapped in [DASH_ASSERT_RETURNS(expr, expected)] ends. *)
Inductive completion := Returned | AssertionFailed.

Definition DASH_ASSERT_RETURNS (ret expected : dart_ret_t) : completion :=
  if decide (ret = expected) then Returned else AssertionFailed.

Lemma DASH_ASSERT_RETURNS_same (ret : dart_ret_t) :
  DASH_ASSERT_RETURNS ret ret = Returned.
Proof. unfold DASH_ASSERT_RETURNS. by rewrite decide_True. Qed.

End Dart.

(** ** dash/algorithm/Accumulate.h *)

Module Accumulate.
Import Dart.

(** Which buffer a unit hands to [dart_allreduce]: the whole
    [local_result] struct ([&l_result]) or only its value
    ([&l_result.value]). *)
Inductive sendbuf_t := buf_l_result | buf_l_result_value.

(** The transport calls [accumulate] makes, in order. *)
Inductive dart_call :=
| call_type_create_custom
| call_op_create
| call_allreduce (buf : sendbuf_t) (dtype : dart_datatype_t)
                 (dop : dart_operation_t)
| call_op_destroy
| call_type_destroy.

#[export] Instance sendbuf_eq_dec : EqDecision sendbuf_t.
Proof. solve_decision. Defined.

#[export] Instance dart_call_eq_dec : EqDecision dart_call.
Proof. solve_decision. Defined.

(** The transport calls of the two branches of [accumulate]. *)
Definition custom_calls : list dart_call :=
  [ call_type_create_custom; call_op_create;
    call_allreduce buf_l_result DART_TYPE_CUSTOM DART_OP_CUSTOM;
    call_op_destroy; call_type_destroy ].

Definition native_calls (dtype : dart_datatype_t) (dop : dart_operation_t)
  : list dart_call :=
  [ call_allreduce buf_l_result_value dtype dop ].

Section WithValueType.

(** [ValueType], its value-initialised element [ValueType{}], and the
    user's [binary_op]. *)
Context {ValueType : Type}.
Variable value_init : ValueType.
Variable binary_op : ValueType → ValueType → ValueType.

(** [dart_reduce_operation<BinaryOperation>::value] and
    [dart_storage<ValueType>::dtype]: traits declared outside this header,
    taken as parameters; [predefined_op] is what the transport's
    predefined operation [dop] computes on elements of [dtype]. *)
Variable dop : dart_operation_t.
Variable dtype : dart_datatype_t.
Variable predefined_op : ValueType → ValueType → ValueType.

(** [struct local_result { ValueType value{}; bool valid = false; }] *)
Record local_result := LocalResult { value : ValueType; valid : bool }.

Definition local_result_default : local_result :=
  {| value := value_init; valid := false |}.

(** [accumulate_custom_fn<ValueType, F>(invec, inoutvec, _, userdata)]:
    the new contents of [*inoutvec]. *)
Definition accumulate_custom_fn (fn : ValueType → ValueType → ValueType)
    (invec inoutvec : local_result) : local_result :=
  if valid invec then
    if valid inoutvec then
      {| value := fn (value invec) (value inoutvec);
         valid := valid inoutvec |}
    else
      {| value := value invec; valid := true |}
  else inoutvec.

(** The local phase: [l_result] after
    [if (l_first != l_last) { l_result.value = std::accumulate(
       std::next(l_first), l_last, *l_first, binary_op); valid = true }]. *)
Definition local_phase (local_range : list ValueType) : local_result :=
  match local_range with
  | [] => local_result_default
  | x :: xs => {| value := fold_left binary_op xs x; valid := true |}
  end.

(** What a call of [accumulate] produces: the returned value, the
    transport calls made, and the diagnostics logged. *)
Record outcome := Outcome {
  returned : ValueType;
  dart_calls : list dart_call;
  logged : list string
}.

(** The guard [!non_empty || dop == DART_OP_UNDEFINED ||
    dtype == DART_TYPE_UNDEFINED] that selects the custom reduction. *)
Definition custom_path (non_empty : bool) : bool :=
  negb non_empty
  || bool_decide (dop = DART_OP_UNDEFINED)
  || bool_decide (dtype = DART_TYPE_UNDEFINED).

(** The tail of [accumulate], from [if (!g_result.valid)] on. *)
Definition finish (init : ValueType) (g_result : local_result)
    (calls : list dart_call) : outcome :=
  {| returned := binary_op init (value g_result);
     dart_calls := calls;
     logged := if valid g_result then []
               else ["Found invalid reduction value!"%string] |}.

(** [accumulate(in_first, in_last, init, binary_op, non_empty, team)],
    local-range form.  It is a collective call: [ranges] lists the local
    range [[in_first, in_last)] of every unit of the team, in unit order,
    and the result is what the call returns on each of them. *)
Definition accumulate (ranges : list (list ValueType)) (init : ValueType)
    (non_empty : bool) : option outcome :=
  let l_results := local_phase <$> ranges in
  if custom_path non_empty then
    g_result ← dart_allreduce (accumulate_custom_fn binary_op) l_results;
    Some (finish init g_result custom_calls)
  else
    g_value ← dart_allreduce predefined_op (value <$> l_results);
    Some (finish init {| value := g_value; valid := true |}
                 (native_calls dtype dop)).

(** The global-range form: the local ranges come from
    [dash::local_range(in_first, in_last)] on every unit, and
    [units_non_empty] is the constant [false]. *)
Definition units_non_empty : bool := false.

Definition accumulate_global (local_ranges : list (list ValueType))
    (init : ValueType) : option outcome :=
  accumulate local_ranges init units_non_empty.

(** *** The reduction as the specification words it

    A unit's contribution is the left fold of its local elements from the
    first one on; a unit without local elements has none.  The combined
    value is the all-reduce of the contributions with [binary_op], and the
    result is [binary_op init combined]. *)
Definition contribution (local_range : list ValueType)
  : option ValueType :=
  match local_range with
  | [] => None
  | x :: xs => Some (fold_left binary_op xs x)
  end.

Definition accumulate_spec (ranges : list (list ValueType))
    (init : ValueType) : option ValueType :=
  combined ← dart_allreduce binary_op (omap contribution ranges);
  Some (binary_op init combined).

(** *** Auxiliary facts: the custom payload is an option in disguise *)

(** The payload that stands for an optional value. *)
Definition payload_of (o : option ValueType) : local_result :=
  match o with
  | Some v => {| value := v; valid := true |}
  | None => local_result_default
  end.

(** [binary_op] on optional values: the present operand wins. *)
Definition option_op (a b : option ValueType) : option ValueType :=
  match a, b with
  | Some x, Some y => Some (binary_op x y)
  | Some x, None => Some x
  | None, _ => b
  end.

Lemma local_phase_payload r : local_phase r = payload_of (contribution r).
Proof. by destruct r. Qed.

Lemma local_phases_payload (rs : list (list ValueType)) :
  local_phase <$> rs = payload_of <$> (contribution <$> rs).
Proof.
  induction rs as [|r rs IH]; [done|].
  cbn. by rewrite local_phase_payload, <- IH.
Qed.

Lemma custom_fn_payload a b :
  accumulate_custom_fn binary_op (payload_of a) (payload_of b)
  = payload_of (option_op a b).
Proof. by destruct a, b. Qed.

Lemma fold_custom_fn_payload os o :
  fold_left (accumulate_custom_fn binary_op) (payload_of <$> os) (payload_of o)
  = payload_of (fold_left option_op os o).
Proof.
  revert o. induction os as [|o' os IH]; intros o; [done|].
  cbn [fmap list_fmap fold_left]. by rewrite custom_fn_payload, IH.
Qed.

Lemma fold_option_op_Some os x :
  fold_left option_op os (Some x)
  = Some (fold_left binary_op (omap id os) x).
Proof.
  revert x. induction os as [|[y|] os IH]; intros x; cbn; [done| |]; apply IH.
Qed.

Lemma fold_option_op os o :
  fold_left option_op os o = dart_allreduce binary_op (omap id (o :: os)).
Proof.
  destruct o as [x|]; cbn [omap list_omap id]; [apply fold_option_op_Some|].
  induction os as [|[y|] os IH]; cbn; [done| |done].
  apply fold_option_op_Some.
Qed.

Lemma omap_id_contribution (rs : list (list ValueType)) :
  omap id (contribution <$> rs) = omap contribution rs.
Proof.
  induction rs as [|r rs IH]; [done|].
  cbn. destruct (contribution r); cbn; by rewrite IH.
Qed.

(** On a non-empty team the custom all-reduce delivers the payload of the
    all-reduce, with [binary_op], of the contributions that exist. *)
Lemma custom_allreduce_contributions (ranges : list (list ValueType)) :
  ranges ≠ [] →
  dart_allreduce (accumulate_custom_fn binary_op) (local_phase <$> ranges)
  = Some (payload_of (dart_allreduce binary_op (omap contribution ranges))).
Proof.
  destruct ranges as [|r rs]; [done|intros _].
  cbn [fmap list_fmap dart_allreduce]. f_equal.
  rewrite local_phase_payload.
  rewrite local_phases_payload, fold_custom_fn_payload, fold_option_op.
  by rewrite <- omap_id_contribution.
Qed.

(** A unit whose local range is not empty has a contribution. *)
Lemma contribution_Some (r : list ValueType) :
  r ≠ [] → ∃ v, contribution r = Some v ∧ value (local_phase r) = v.
Proof. destruct r; [done|]. intros _. by eexists. Qed.

Lemma omap_contribution_nonempty (rs : list (list ValueType)) :
  Forall (λ r, r ≠ []) rs →
  omap contribution rs = value <$> (local_phase <$> rs).
Proof.
  induction 1 as [|r rs Hr _ IH]; [done|].
  destruct (contribution_Some r Hr) as (v & Hc & Hv).
  cbn. rewrite Hc. cbn. by rewrite IH, <- Hv.
Qed.

Lemma omap_contribution_Exists (rs : list (list ValueType)) :
  Exists (λ r, r ≠ []) rs → omap contribution rs ≠ [].
Proof.
  induction 1 as [r rs Hr|r rs _ IH].
  - destruct (contribution_Some r Hr) as (v & Hc & _). cbn. by rewrite Hc.
  - cbn. by destruct (contribution r).
Qed.

Lemma omap_contribution_empty (rs : list (list ValueType)) :
  Forall (λ r, r = []) rs → omap contribution rs = [].
Proof. induction 1 as [|r rs -> _ IH]; [done|]. by cbn. Qed.

Lemma dart_allreduce_ext {A} (f g : A → A → A) (bufs : list A) :
  (∀ a b, f a b = g a b) → dart_allreduce f bufs = dart_allreduce g bufs.
Proof.
  intros Hfg. destruct bufs as [|b bs]; [done|]. cbn. f_equal.
  revert b. induction bs as [|c bs IH]; intros b; [done|].
  cbn. by rewrite Hfg, IH.
Qed.

Lemma dart_allreduce_is_Some {A} (f : A → A → A) (bufs : list A) :
  bufs ≠ [] → is_Some (dart_allreduce f bufs).
Proof. destruct bufs; [done|]. intros _. by eexists. Qed.

(** In whatever order the transport combines the payloads, the outcome is
    the payload of a reduction of the contributions that exist. *)
Lemma custom_reduction_payload (l : list local_result) (g : local_result) :
  reduces (accumulate_custom_fn binary_op) l g →
  ∀ os, l = payload_of <$> os →
  ∃ o, g = payload_of o ∧
       match o with
       | Some c => reduces binary_op (omap id os) c
       | None => omap id os = []
       end.
Proof.
  induction 1 as [b|l1 l2 r1 r2 _ IH1 _ IH2|l l' r Hperm _ IH]; intros os Hos.
  - destruct os as [|o [|??]]; try done. injection Hos as ->.
    exists o. split; [done|]. destruct o; [constructor|done].
  - symmetry in Hos. apply fmap_app_inv in Hos as (os1 & os2 & -> & -> & ->).
    destruct (IH1 os1 eq_refl) as (o1 & -> & H1).
    destruct (IH2 os2 eq_refl) as (o2 & -> & H2).
    exists (option_op o1 o2). split; [apply custom_fn_payload|].
    rewrite omap_app. destruct o1 as [c1|], o2 as [c2|]; cbn.
    + by apply reduces_app.
    + by rewrite H2, app_nil_r.
    + by rewrite H1.
    + by rewrite H1, H2.
  - subst l'.
    assert (∃ os0, l = payload_of <$> os0 ∧ os ≡ₚ os0) as (os0 & -> & Hp).
    { clear IH. revert os Hperm.
      induction l as [|x l IHl]; intros os Hperm.
      - apply Permutation_nil_l in Hperm. symmetry in Hperm.
        apply fmap_nil_inv in Hperm as ->. by exists [].
      - assert (x ∈ payload_of <$> os) as (o & -> & Ho)%list_elem_of_fmap.
        { rewrite <- Hperm. apply list_elem_of_here. }
        apply elem_of_Permutation in Ho as [os' Hos'].
        rewrite Hos' in Hperm. cbn in Hperm.
        apply Permutation_cons_inv in Hperm.
        destruct (IHl os' Hperm) as (os0 & -> & Hp).
        exists (o :: os0). split; [done|]. by rewrite Hos', Hp. }
    destruct (IH os0 eq_refl) as (o & -> & Ho).
    exists o. split; [done|]. destruct o as [c|].
    + apply (reduces_perm _ (omap id os0)); [by rewrite Hp|done].
    + apply Permutation_nil_r. by rewrite Hp, Ho.
Qed.

(** Whatever the combination order, units with an empty local range leave
    no trace in the combined payload.  It is valid exactly when some unit
    has a local element, and then its value is a reduction, with
    [binary_op], of the folds of the units that have one. *)
Theorem custom_reduction_any_order
    (ranges : list (list ValueType)) (g : local_result) :
  reduces (accumulate_custom_fn binary_op) (local_phase <$> ranges) g →
  (valid g = true →
   reduces binary_op (omap contribution ranges) (value g)) ∧
  (valid g = false →
   Forall (λ r, r = []) ranges ∧ value g = value_init).
Proof.
  intros Hg.
  destruct (custom_reduction_payload _ g Hg (contribution <$> ranges))
    as (o & -> & Ho); [apply local_phases_payload|].
  rewrite omap_id_contribution in Ho.
  destruct o as [c|]; cbn; split; try done. intros _. split; [|done].
  clear Hg. induction ranges as [|r rs IH]; [constructor|].
  destruct r; [|done]. constructor; [done|]. by apply IH.
Qed.

(** *** The claims about [accumulate] *)

(** C4.  The custom combiner applies the user's operation only when both
    payloads are valid; when exactly one is valid the result is that payload,
    value and flag; when neither is, the accumulator [inoutvec] stays as it
    is.  Consequently a unit with an empty local range contributes nothing:
    the combined payload of a team is the same with or without such a unit,
    and it is the payload of the reduction of the non-empty units' folds. *)
Theorem accumulate_custom_fn_valid_operands_only
    (fn : ValueType → ValueType → ValueType) :
  (∀ x y, accumulate_custom_fn fn (LocalResult x true) (LocalResult y true)
          = LocalResult (fn x y) true) ∧
  (∀ x y, accumulate_custom_fn fn (LocalResult x true) (LocalResult y false)
          = LocalResult x true) ∧
  (∀ x y, accumulate_custom_fn fn (LocalResult x false) (LocalResult y true)
          = LocalResult y true) ∧
  (∀ x y, accumulate_custom_fn fn (LocalResult x false) (LocalResult y false)
          = LocalResult y false) ∧
  (∀ before after : list (list ValueType),
     before ++ after ≠ [] →
     dart_allreduce (accumulate_custom_fn binary_op)
                    (local_phase <$> (before ++ [] :: after))
     = dart_allreduce (accumulate_custom_fn binary_op)
                      (local_phase <$> (before ++ after))
     ∧ dart_allreduce (accumulate_custom_fn binary_op)
                      (local_phase <$> (before ++ after))
       = Some (payload_of (dart_allreduce binary_op
                             (omap contribution (before ++ after))))).
Proof.
  repeat split; try done.
  - rewrite !custom_allreduce_contributions; [|done|by destruct before].
    by rewrite !omap_app.
  - by apply custom_allreduce_contributions.
Qed.

(** C1, as the code has it.  [accumulate] returns [binary_op init combined],
    where each unit's contribution is the left fold of its local elements
    from the first one on and [combined] is the all-reduce of the
    contributions with [binary_op], in two situations: on the custom path
    when at least one unit has a local element, and on the native path
    (where the predefined operation computes [binary_op]) when every unit
    has one. *)
Theorem accumulate_returns_init_op_combined
    (ranges : list (list ValueType)) (init : ValueType) (non_empty : bool) :
  (custom_path non_empty = false → ∀ a b, predefined_op a b = binary_op a b) →
  (custom_path non_empty = true ∧ Exists (λ r, r ≠ []) ranges)
  ∨ (ranges ≠ [] ∧ Forall (λ r, r ≠ []) ranges) →
  ∃ combined,
    dart_allreduce binary_op (omap contribution ranges) = Some combined ∧
    returned <$> accumulate ranges init non_empty
    = Some (binary_op init combined) ∧
    accumulate_spec ranges init = Some (binary_op init combined).
Proof.
  intros Hop Hranges.
  assert (Hex : Exists (λ r, r ≠ []) ranges).
  { destruct Hranges as [[_ ?]|[Hne Hall]]; [done|].
    destruct ranges as [|r rs]; [done|]. left. by inversion Hall. }
  assert (Hne : ranges ≠ []) by (by destruct Hex).
  destruct (dart_allreduce_is_Some binary_op (omap contribution ranges))
    as [combined Hc]; [by apply omap_contribution_Exists|].
  exists combined. split; [done|]. split.
  - unfold accumulate. destruct (custom_path non_empty) eqn:Hpath.
    + rewrite custom_allreduce_contributions, Hc by done. done.
    + destruct Hranges as [[? _]|[_ Hall]]; [done|].
      rewrite <- omap_contribution_nonempty by done.
      rewrite (dart_allreduce_ext _ binary_op) by auto.
      rewrite Hc. done.
  - unfold accumulate_spec. by rewrite Hc.
Qed.

(** C2, as the code has it.  Let every unit's local range be empty.  On the
    custom path [accumulate] returns [binary_op init ValueType{}], logs the
    diagnostic and goes on; the result is [init] whenever the
    value-initialised [ValueType] is a right identity of [binary_op].  On the
    native path (the [non_empty] hint was set all the same) it returns
    [binary_op init g], with [g] the predefined reduction of the units'
    [ValueType{}], and logs nothing. *)
Theorem accumulate_all_units_empty
    (ranges : list (list ValueType)) (init : ValueType) (non_empty : bool) :
  ranges ≠ [] →
  Forall (λ r, r = []) ranges →
  (custom_path non_empty = true →
   accumulate ranges init non_empty
   = Some {| returned := binary_op init value_init;
             dart_calls := custom_calls;
             logged := ["Found invalid reduction value!"%string] |}
   ∧ ((∀ a, binary_op a value_init = a) →
      returned <$> accumulate ranges init non_empty = Some init)) ∧
  (custom_path non_empty = false →
   ∃ g,
     dart_allreduce predefined_op (replicate (length ranges) value_init)
     = Some g ∧
     accumulate ranges init non_empty
     = Some {| returned := binary_op init g;
               dart_calls := native_calls dtype dop;
               logged := [] |}).
Proof.
  intros Hne Hall. split; intros Hpath.
  - assert (accumulate ranges init non_empty
            = Some {| returned := binary_op init value_init;
                      dart_calls := custom_calls;
                      logged := ["Found invalid reduction value!"%string] |})
      as Hacc.
    { unfold accumulate. rewrite Hpath.
      rewrite custom_allreduce_contributions by done.
      by rewrite omap_contribution_empty. }
    split; [done|]. intros Hid. rewrite Hacc. cbn. by rewrite Hid.
  - assert (value <$> (local_phase <$> ranges)
            = replicate (length ranges) value_init) as Hvalues.
    { clear Hne. induction Hall as [|r rs -> _ IH]; [done|].
      cbn. by rewrite <- IH. }
    destruct (dart_allreduce_is_Some predefined_op
                (replicate (length ranges) value_init)) as [g Hg].
    { by destruct ranges. }
    exists g. split; [done|].
    unfold accumulate. by rewrite Hpath, Hvalues, Hg.
Qed.

(** C3, as the code has it.  The native all-reduce (on the raw values, with
    the predefined operation) is used exactly when the [non_empty] hint is
    set, the operation is a recognised one and the value type is a transport
    primitive; every other call uses the custom payload.  The global-range
    form passes [units_non_empty = false] and so always uses the custom
    payload. *)
Theorem accumulate_native_path_needs_non_empty_hint
    (ranges : list (list ValueType)) (init : ValueType) (non_empty : bool) :
  ranges ≠ [] →
  (∃ o, accumulate ranges init non_empty = Some o ∧
        dart_calls o =
          if non_empty && bool_decide (dop ≠ DART_OP_UNDEFINED)
                       && bool_decide (dtype ≠ DART_TYPE_UNDEFINED)
          then native_calls dtype dop else custom_calls) ∧
  (∃ o, accumulate_global ranges init = Some o ∧
        dart_calls o = custom_calls).
Proof.
  intros Hne.
  assert (Hl : local_phase <$> ranges ≠ []) by (by destruct ranges).
  assert (Hv : value <$> (local_phase <$> ranges) ≠ []) by (by destruct ranges).
  split.
  - unfold accumulate, custom_path.
    destruct (dart_allreduce_is_Some (accumulate_custom_fn binary_op) _ Hl)
      as [g ->].
    destruct (dart_allreduce_is_Some predefined_op _ Hv) as [gv ->].
    destruct non_empty; cbn [negb orb andb]; [|by eexists].
    repeat case_bool_decide; cbn [orb andb];
      first [ by (eexists; split; reflexivity) | exfalso; tauto ].
  - unfold accumulate_global, accumulate, custom_path, units_non_empty.
    destruct (dart_allreduce_is_Some (accumulate_custom_fn binary_op) _ Hl)
      as [g ->].
    cbn. by eexists.
Qed.

End WithValueType.

(** *** Concrete teams over [int] *)

(** [dash::min<int>], [dash::multiplies<int>] and [dash::plus<int>] with the
    predefined operations they are mapped to; [int{}] is [0]. *)
Definition accumulate_min :=
  accumulate (ValueType := Z) 0 Z.min DART_OP_MIN DART_TYPE_INT Z.min.
Definition accumulate_prod :=
  accumulate (ValueType := Z) 0 Z.mul DART_OP_PROD DART_TYPE_INT Z.mul.
Definition accumulate_plus :=
  accumulate (ValueType := Z) 0 Z.add DART_OP_SUM DART_TYPE_INT Z.add.
Definition accumulate_global_plus :=
  accumulate_global (ValueType := Z) 0 Z.add DART_OP_SUM DART_TYPE_INT Z.add.

(** Scenario S4: [[1..20]] over three units, [init = 10], [+]. *)
Example accumulate_S4 :
  returned <$> accumulate_global_plus
    [seqZ 1 7; seqZ 8 7; seqZ 15 6] 10 = Some 220.
Proof. reflexivity. Qed.

(** C1 fails as stated.  The local ranges [[5]] and [[]], [min] and
    [init = 7]: the reduction of the contributions gives [min 7 5 = 5], and so
    does the call without the [non_empty] hint; with the hint the call takes
    the native path, where the empty unit sends [int{} = 0], and returns
    [min 7 (min 5 0) = 0].  The result depends on the hint, which the claimed
    value does not. *)
Lemma accumulate_native_empty_unit_counterexample :
  returned <$> accumulate_min [[5]; []] 7 true = Some 0 ∧
  returned <$> accumulate_min [[5]; []] 7 false = Some 5 ∧
  accumulate_spec Z.min [[5]; []] 7 = Some 5 ∧
  returned <$> accumulate_min [[5]; []] 7 true
  ≠ accumulate_spec Z.min [[5]; []] 7.
Proof. repeat split; done. Qed.

Lemma accumulate_returns_init_op_combined_witness :
  ∃ combined,
    dart_allreduce Z.add (omap (contribution Z.add) [[1; 2]; []; [3]])
    = Some combined ∧
    returned <$> accumulate_plus [[1; 2]; []; [3]] 10 false
    = Some (10 + combined) ∧
    accumulate_spec Z.add [[1; 2]; []; [3]] 10 = Some (10 + combined).
Proof.
  apply (accumulate_returns_init_op_combined 0 Z.add DART_OP_SUM DART_TYPE_INT
           Z.add [[1; 2]; []; [3]] 10 false).
  - intros _ a b. reflexivity.
  - left. split; [reflexivity|]. apply Exists_cons_hd. discriminate.
Defined.

(** Three units, the middle one without local elements, summed in unit
    order. *)
Lemma custom_reduction_any_order_witness :
  reduces Z.add (omap (contribution Z.add) [[1; 2]; []; [3]]) 6.
Proof.
  destruct (custom_reduction_any_order 0 Z.add [[1; 2]; []; [3]]
              (LocalResult 6 true)) as [Hvalid _].
  - apply dart_allreduce_reduces. reflexivity.
  - apply Hvalid. reflexivity.
Defined.

(** C2 fails as stated: a product over a team whose units are all empty
    returns [5 * int{} = 0], not [init = 5]; and with the [non_empty] hint set
    no diagnostic is logged. *)
Lemma accumulate_all_empty_counterexample :
  returned <$> accumulate_prod [[]; []] 5 false = Some 0 ∧
  logged <$> accumulate_prod [[]; []] 5 false
  = Some ["Found invalid reduction value!"%string] ∧
  returned <$> accumulate_prod [[]; []] 5 false ≠ Some 5 ∧
  returned <$> accumulate_prod [[]; []] 5 true = Some 0 ∧
  logged <$> accumulate_prod [[]; []] 5 true = Some [].
Proof. repeat split; done. Qed.

Lemma accumulate_all_units_empty_witness :
  accumulate_plus [[]; []] 5 false
  = Some {| returned := 5 + 0;
            dart_calls := custom_calls;
            logged := ["Found invalid reduction value!"%string] |} ∧
  returned <$> accumulate_plus [[]; []] 5 false = Some 5.
Proof.
  destruct (accumulate_all_units_empty 0 Z.add DART_OP_SUM DART_TYPE_INT Z.add
              [[]; []] 5 false) as [Hcustom _].
  - discriminate.
  - repeat constructor.
  - destruct (Hcustom eq_refl) as [Hresult Hinit].
    split; [exact Hresult|]. apply Hinit. intros a. lia.
Defined.

(** C3 fails as stated: [+] on [int] is a recognised reduction on a
    primitive type, yet without the [non_empty] hint, and on every call of
    the global-range form, the custom payload is reduced. *)
Lemma accumulate_recognised_op_custom_path_counterexample :
  dart_calls <$> accumulate_plus [[1; 2]; [3]] 0 false = Some custom_calls ∧
  dart_calls <$> accumulate_global_plus [[1; 2]; [3]] 0 = Some custom_calls ∧
  dart_calls <$> accumulate_plus [[1; 2]; [3]] 0 true
  = Some (native_calls DART_TYPE_INT DART_OP_SUM).
Proof. repeat split; done. Qed.

Lemma accumulate_native_path_needs_non_empty_hint_witness :
  (∃ o, accumulate_plus [[1; 2]; [3]] 0 true = Some o ∧
        dart_calls o = native_calls DART_TYPE_INT DART_OP_SUM) ∧
  (∃ o, accumulate_global_plus [[1; 2]; [3]] 0 = Some o ∧
        dart_calls o = custom_calls).
Proof.
  apply (accumulate_native_path_needs_non_empty_hint 0 Z.add DART_OP_SUM
           DART_TYPE_INT Z.add [[1; 2]; [3]] 0 true).
  discriminate.
Defined.

(** *** The two phases against one sequential fold *)

Section Sequential.

Context {ValueType : Type}.
Variable value_init : ValueType.
Variable binary_op : ValueType → ValueType → ValueType.
Variable dop : dart_operation_t.
Variable dtype : dart_datatype_t.
Variable predefined_op : ValueType → ValueType → ValueType.

Abbreviation accumulate_here :=
  (accumulate value_init binary_op dop dtype predefined_op).

(** The overload without [binary_op], [accumulate(in_first, in_last, init,
    non_empty = false, team)]: it forwards to the form above with
    [dash::plus<ValueType>()], which is [binary_op] here, and its
    [non_empty] hint defaults to [false]. *)
Definition accumulate_plus_overload (ranges : list (list ValueType))
    (init : ValueType) (non_empty : option bool) : option outcome :=
  accumulate_here ranges init (default false non_empty).

(** The values a call may return when the transport combines the send
    buffers in an order of its choice, as it may for an operation that is
    handed to it as commutative: the reduction of [accumulate] with [reduces]
    in the place of the unit-order [dart_allreduce]. *)
Definition accumulate_returns (ranges : list (list ValueType))
    (init : ValueType) (non_empty : bool) (v : ValueType) : Prop :=
  if custom_path dop dtype non_empty then
    ∃ g, reduces (accumulate_custom_fn binary_op)
           (local_phase value_init binary_op <$> ranges) g
         ∧ v = binary_op init (value g)
  else
    ∃ g, reduces predefined_op
           (value <$> (local_phase value_init binary_op <$> ranges)) g
         ∧ v = binary_op init g.

(** What [accumulate] returns with the buffers combined in unit order is one
    of these values. *)
Lemma accumulate_returns_unit_order
    (ranges : list (list ValueType)) (init : ValueType) (non_empty : bool)
    (o : outcome) :
  accumulate_here ranges init non_empty = Some o →
  accumulate_returns ranges init non_empty (returned o).
Proof.
  unfold accumulate, accumulate_returns.
  destruct (custom_path dop dtype non_empty).
  - destruct (dart_allreduce _ _) as [g|] eqn:Hg; [|done].
    intros [= <-]. exists g. split; [by apply dart_allreduce_reduces|done].
  - destruct (dart_allreduce _ _) as [g|] eqn:Hg; [|done].
    intros [= <-]. exists g. split; [by apply dart_allreduce_reduces|done].
Qed.

Lemma reduces_ext {A} (f g : A → A → A) (l : list A) (r : A) :
  (∀ a b, f a b = g a b) → reduces f l r → reduces g l r.
Proof.
  intros Hfg. induction 1 as [b|l1 l2 r1 r2 _ IH1 _ IH2|l l' r Hperm _ IH].
  - constructor.
  - rewrite Hfg. by constructor.
  - by apply (reduces_perm _ l).
Qed.

Lemma fold_left_op_assoc `{!Assoc (=) binary_op} (ys : list ValueType) a y :
  binary_op a (fold_left binary_op ys y) = fold_left binary_op ys (binary_op a y).
Proof.
  revert y. induction ys as [|z ys IH]; intros y; [done|].
  cbn. by rewrite IH, (assoc_L binary_op).
Qed.

Lemma contribution_app `{!Assoc (=) binary_op} (l1 l2 : list ValueType) :
  contribution binary_op (l1 ++ l2)
  = option_op binary_op (contribution binary_op l1)
                        (contribution binary_op l2).
Proof.
  destruct l1 as [|x xs]; [by destruct l2|].
  destruct l2 as [|y ys]; cbn; [by rewrite app_nil_r|].
  f_equal. rewrite fold_left_app. cbn. by rewrite fold_left_op_assoc.
Qed.

Lemma fold_option_op_concat `{!Assoc (=) binary_op}
    (rs : list (list ValueType)) (acc : list ValueType) :
  fold_left (option_op binary_op) (contribution binary_op <$> rs)
            (contribution binary_op acc)
  = contribution binary_op (acc ++ concat rs).
Proof.
  revert acc. induction rs as [|r rs IH]; intros acc; cbn.
  - by rewrite app_nil_r.
  - by rewrite <- contribution_app, IH, (assoc_L (++)).
Qed.

(** With an associative operation the all-reduce of the units'
    contributions is the fold of all elements, taken unit after unit. *)
Lemma allreduce_contributions_concat `{!Assoc (=) binary_op}
    (rs : list (list ValueType)) :
  dart_allreduce binary_op (omap (contribution binary_op) rs)
  = contribution binary_op (concat rs).
Proof.
  rewrite <- omap_id_contribution.
  change (omap id (contribution binary_op <$> rs))
    with (omap id (None :: (contribution binary_op <$> rs))).
  rewrite <- fold_option_op.
  apply (fold_option_op_concat rs []).
Qed.

Lemma fold_left_op_perm `{!Assoc (=) binary_op, !Comm (=) binary_op}
    (l l' : list ValueType) :
  l ≡ₚ l' → ∀ a, fold_left binary_op l a = fold_left binary_op l' a.
Proof.
  induction 1 as [|x l l' _ IH|x y l|l l' l'' _ IH1 _ IH2]; intros a; cbn.
  - done.
  - apply IH.
  - f_equal. rewrite <- !(assoc_L binary_op). f_equal. apply (comm_L binary_op).
  - by rewrite IH1.
Qed.

Lemma contribution_perm `{!Assoc (=) binary_op, !Comm (=) binary_op}
    (l l' : list ValueType) :
  l ≡ₚ l' → contribution binary_op l = contribution binary_op l'.
Proof.
  induction 1 as [|x l l' Hperm _|x y l|l l' l'' _ IH1 _ IH2]; cbn.
  - done.
  - f_equal. by apply fold_left_op_perm.
  - do 2 f_equal. apply (comm_L binary_op).
  - by rewrite IH1.
Qed.

(** With an associative and commutative operation every combination order
    gives the fold in list order. *)
Lemma reduces_contribution `{!Assoc (=) binary_op, !Comm (=) binary_op}
    (l : list ValueType) (r : ValueType) :
  reduces binary_op l r → contribution binary_op l = Some r.
Proof.
  induction 1 as [b|l1 l2 r1 r2 _ IH1 _ IH2|l l' r Hperm _ IH].
  - done.
  - by rewrite contribution_app, IH1, IH2.
  - by rewrite <- (contribution_perm l l').
Qed.

(** In whatever order the payloads are combined, the outcome is the payload
    of the sequential fold of all elements. *)
Lemma custom_reduces_sequential `{!Assoc (=) binary_op, !Comm (=) binary_op}
    (ranges : list (list ValueType)) (g : local_result) :
  reduces (accumulate_custom_fn binary_op)
          (local_phase value_init binary_op <$> ranges) g →
  g = payload_of value_init (contribution binary_op (concat ranges)).
Proof.
  intros Hg.
  destruct (custom_reduction_payload value_init binary_op _ g Hg
              (contribution binary_op <$> ranges))
    as (o & -> & Ho); [apply local_phases_payload|].
  rewrite omap_id_contribution in Ho. f_equal.
  rewrite <- allreduce_contributions_concat.
  destruct o as [c|].
  - apply reduces_contribution in Ho. by rewrite <- Ho.
  - by rewrite Ho.
Qed.

(** The value [accumulate] returns, on either path, when the native
    operation computes [binary_op] and no unit without local elements takes
    part in a native reduction. *)
Lemma accumulate_returned_payload
    (ranges : list (list ValueType)) (init : ValueType) (non_empty : bool) :
  ranges ≠ [] →
  (custom_path dop dtype non_empty = false →
   (∀ a b, predefined_op a b = binary_op a b) ∧
   Forall (λ r, r ≠ []) ranges) →
  accumulate_here ranges init non_empty
  = Some (finish binary_op init
            (if custom_path dop dtype non_empty then
               payload_of value_init
                 (dart_allreduce binary_op
                    (omap (contribution binary_op) ranges))
             else
               {| value := value (payload_of value_init
                                    (dart_allreduce binary_op
                                       (omap (contribution binary_op) ranges)));
                  valid := true |})
            (if custom_path dop dtype non_empty then custom_calls
             else native_calls dtype dop)).
Proof.
  intros Hne Hnative. unfold accumulate.
  destruct (custom_path dop dtype non_empty) eqn:Hpath.
  - by rewrite custom_allreduce_contributions.
  - destruct (Hnative eq_refl) as [Hop Hall].
    rewrite <- (omap_contribution_nonempty value_init) by done.
    rewrite (dart_allreduce_ext _ binary_op) by done.
    destruct (dart_allreduce_is_Some binary_op
                (omap (contribution binary_op) ranges)) as [c Hc].
    { rewrite (omap_contribution_nonempty value_init) by done.
      by destruct ranges. }
    by rewrite Hc.
Qed.

(** For an associative and commutative [binary_op] the two-phase reduction
    is the sequential one: [accumulate] returns [binary_op init c], where [c]
    is the left fold of all elements of the team, unit after unit, from the
    first element on, and it returns that value in whatever order the
    transport combines the units' send buffers.  It holds on the custom path
    when some unit has a local element, and on the native path when every
    unit has one. *)
Theorem accumulate_associative_is_sequential
    `{!Assoc (=) binary_op, !Comm (=) binary_op}
    (ranges : list (list ValueType)) (init : ValueType) (non_empty : bool) :
  (custom_path dop dtype non_empty = false →
   (∀ a b, predefined_op a b = binary_op a b) ∧
   Forall (λ r, r ≠ []) ranges) →
  concat ranges ≠ [] →
  ∃ x xs,
    concat ranges = x :: xs ∧
    returned <$> accumulate_here ranges init non_empty
    = Some (binary_op init (fold_left binary_op xs x)) ∧
    ∀ v, accumulate_returns ranges init non_empty v →
         v = binary_op init (fold_left binary_op xs x).
Proof.
  intros Hnative Hsome.
  assert (Hne : ranges ≠ []) by (by intros ->).
  destruct (concat ranges) as [|x xs] eqn:Hconcat; [done|].
  exists x, xs. split; [done|]. split.
  - rewrite (accumulate_returned_payload ranges init non_empty Hne Hnative).
    rewrite allreduce_contributions_concat, Hconcat.
    by destruct (custom_path dop dtype non_empty).
  - intros v. unfold accumulate_returns.
    destruct (custom_path dop dtype non_empty).
    + intros (g & Hg & ->). apply custom_reduces_sequential in Hg.
      by rewrite Hg, Hconcat.
    + intros (g & Hg & ->). destruct (Hnative eq_refl) as [Hop Hall].
      apply (reduces_ext _ binary_op) in Hg; [|done].
      rewrite <- (omap_contribution_nonempty value_init) in Hg by done.
      apply reduces_contribution in Hg.
      change (dart_allreduce binary_op
                (omap (contribution binary_op) ranges) = Some g) in Hg.
      rewrite allreduce_contributions_concat, Hconcat in Hg.
      by injection Hg as <-.
Qed.

(** [accumulate] hands [accumulate_custom_fn] to [dart_op_create] as a
    commutative operation.  The combiner is associative on all payloads
    whenever [binary_op] is, and commutative, whenever [binary_op] is, on the
    payloads the units send (those of [local_phase]); two different invalid
    payloads would not commute. *)
Theorem accumulate_custom_fn_associative_commutative :
  (Assoc (=) binary_op →
   ∀ a b c : local_result,
     accumulate_custom_fn binary_op (accumulate_custom_fn binary_op a b) c
     = accumulate_custom_fn binary_op a (accumulate_custom_fn binary_op b c)) ∧
  (Comm (=) binary_op →
   ∀ r1 r2 : list ValueType,
     accumulate_custom_fn binary_op (local_phase value_init binary_op r1)
                                    (local_phase value_init binary_op r2)
     = accumulate_custom_fn binary_op (local_phase value_init binary_op r2)
                                      (local_phase value_init binary_op r1)) ∧
  (∀ x y, x ≠ y →
     accumulate_custom_fn binary_op (LocalResult x false) (LocalResult y false)
     ≠ accumulate_custom_fn binary_op (LocalResult y false)
                                      (LocalResult x false)).
Proof.
  split; [|split].
  - intros Hassoc [x [|]] [y [|]] [z [|]]; cbn; try done.
    by rewrite (assoc_L binary_op).
  - intros Hcomm [|x xs] [|y ys]; cbn; try done.
    f_equal. apply (comm_L binary_op).
  - intros x y Hxy. cbn. congruence.
Qed.

Lemma fold_left_from_identity `{!LeftId (=) value_init binary_op}
    (x : ValueType) (xs : list ValueType) :
  fold_left binary_op (x :: xs) value_init = fold_left binary_op xs x.
Proof. cbn. by rewrite (left_id_L value_init binary_op). Qed.

Lemma fold_left_op_start
    `{!Assoc (=) binary_op, !LeftId (=) value_init binary_op,
      !RightId (=) value_init binary_op}
    (l : list ValueType) (a : ValueType) :
  fold_left binary_op l a = binary_op a (fold_left binary_op l value_init).
Proof.
  destruct l as [|y ys]; cbn.
  - by rewrite (right_id_L value_init binary_op).
  - by rewrite (left_id_L value_init binary_op), fold_left_op_assoc.
Qed.

Lemma contribution_value_from_identity
    `{!LeftId (=) value_init binary_op} (l : list ValueType) :
  value (payload_of value_init (contribution binary_op l))
  = fold_left binary_op l value_init.
Proof. destruct l as [|x xs]; [done|]. by rewrite fold_left_from_identity. Qed.

Lemma fold_left_local_values
    `{!Assoc (=) binary_op, !LeftId (=) value_init binary_op,
      !RightId (=) value_init binary_op}
    (rs : list (list ValueType)) (acc : list ValueType) :
  fold_left binary_op (value <$> (local_phase value_init binary_op <$> rs))
            (fold_left binary_op acc value_init)
  = fold_left binary_op (acc ++ concat rs) value_init.
Proof.
  revert acc. induction rs as [|r rs IH]; intros acc.
  - cbn. by rewrite app_nil_r.
  - rewrite !fmap_cons. cbn [fold_left concat].
    rewrite local_phase_payload, contribution_value_from_identity.
    rewrite <- fold_left_op_start, <- (fold_left_app _ acc r), IH.
    by rewrite (assoc_L (++)).
Qed.

Lemma allreduce_local_values
    `{!Assoc (=) binary_op, !LeftId (=) value_init binary_op,
      !RightId (=) value_init binary_op}
    (rs : list (list ValueType)) :
  rs ≠ [] →
  dart_allreduce binary_op
    (value <$> (local_phase value_init binary_op <$> rs))
  = Some (fold_left binary_op (concat rs) value_init).
Proof.
  destruct rs as [|r rs]; [done|intros _].
  rewrite !fmap_cons. unfold dart_allreduce. f_equal.
  rewrite local_phase_payload, contribution_value_from_identity.
  apply fold_left_local_values.
Qed.

(** When the value-initialised [ValueType] is the identity of an
    associative and commutative [binary_op] (sum, bitwise or and xor, logical
    or), the result does not depend on how the elements are distributed, on
    units without local elements, on the [non_empty] hint, or on the order
    in which the transport combines the units' send buffers: [accumulate]
    returns [binary_op init s], with [s] the fold of all elements of the team
    from [ValueType{}] on. *)
Theorem accumulate_identity_any_distribution
    `{!Assoc (=) binary_op, !Comm (=) binary_op,
      !LeftId (=) value_init binary_op, !RightId (=) value_init binary_op}
    (ranges : list (list ValueType)) (init : ValueType) (non_empty : bool) :
  ranges ≠ [] →
  (custom_path dop dtype non_empty = false →
   ∀ a b, predefined_op a b = binary_op a b) →
  returned <$> accumulate_here ranges init non_empty
  = Some (binary_op init (fold_left binary_op (concat ranges) value_init)) ∧
  ∀ v, accumulate_returns ranges init non_empty v →
       v = binary_op init (fold_left binary_op (concat ranges) value_init).
Proof.
  intros Hne Hop. split.
  - unfold accumulate.
    destruct (custom_path dop dtype non_empty) eqn:Hpath.
    + rewrite custom_allreduce_contributions by done. cbn.
      rewrite allreduce_contributions_concat.
      by rewrite contribution_value_from_identity.
    + rewrite (dart_allreduce_ext _ binary_op) by auto.
      by rewrite allreduce_local_values.
  - intros v. unfold accumulate_returns.
    destruct (custom_path dop dtype non_empty).
    + intros (g & Hg & ->). apply custom_reduces_sequential in Hg.
      by rewrite Hg, contribution_value_from_identity.
    + intros (g & Hg & ->).
      apply (reduces_ext _ binary_op) in Hg; [|by apply Hop].
      apply reduces_contribution in Hg.
      change (dart_allreduce binary_op
                (value <$> (local_phase value_init binary_op <$> ranges))
              = Some g) in Hg.
      rewrite allreduce_local_values in Hg by done.
      by injection Hg as <-.
Qed.

Lemma omap_contribution_nil (rs : list (list ValueType)) :
  omap (contribution binary_op) rs = [] → Forall (λ r, r = []) rs.
Proof.
  induction rs as [|r rs IH]; [constructor|].
  destruct r; [|done]. cbn. constructor; [done|]. by apply IH.
Qed.

Lemma omap_contribution_not_nil (rs : list (list ValueType)) :
  omap (contribution binary_op) rs ≠ [] → Exists (λ r, r ≠ []) rs.
Proof.
  induction rs as [|r rs IH]; [done|]. destruct r as [|x r].
  - cbn. intros Hrs. right. by apply IH.
  - intros _. by left.
Qed.

(** The diagnostic is logged in one situation only: the reduction takes the
    custom path and no unit has a local element.  In every other call
    nothing is logged. *)
Theorem accumulate_logs_iff_custom_and_all_empty
    (ranges : list (list ValueType)) (init : ValueType) (non_empty : bool) :
  ranges ≠ [] →
  ∃ o,
    accumulate_here ranges init non_empty = Some o ∧
    ((logged o = ["Found invalid reduction value!"%string] ∧
      custom_path dop dtype non_empty = true ∧
      Forall (λ r, r = []) ranges)
     ∨ (logged o = [] ∧
        (custom_path dop dtype non_empty = false
         ∨ Exists (λ r, r ≠ []) ranges))).
Proof.
  intros Hne. unfold accumulate.
  destruct (custom_path dop dtype non_empty) eqn:Hpath.
  - rewrite custom_allreduce_contributions by done.
    destruct (dart_allreduce binary_op (omap (contribution binary_op) ranges))
      as [c|] eqn:Hc; (eexists; split; [reflexivity|]); cbn.
    + right. split; [done|]. right.
      apply omap_contribution_not_nil. intros Hnil. by rewrite Hnil in Hc.
    + left. split; [done|]. split; [done|].
      apply omap_contribution_nil.
      by destruct (omap (contribution binary_op) ranges).
  - destruct (dart_allreduce_is_Some predefined_op
                (value <$> (local_phase value_init binary_op <$> ranges)))
      as [g Hg]; [by destruct ranges|].
    rewrite Hg. eexists. split; [reflexivity|]. right. by split; [|left].
Qed.

End Sequential.

(** Scenario S4 through the overload without [binary_op]: [[1..20]] over
    three units and [init = 10]. *)
Lemma accumulate_identity_any_distribution_witness :
  returned <$> accumulate_plus_overload 0 Z.add DART_OP_SUM DART_TYPE_INT Z.add
                 [seqZ 1 7; seqZ 8 7; seqZ 15 6] 10 None
  = Some (10 + fold_left Z.add
                 (concat [seqZ 1 7; seqZ 8 7; seqZ 15 6]) 0) ∧
  ∀ v, accumulate_returns 0 Z.add DART_OP_SUM DART_TYPE_INT Z.add
         [seqZ 1 7; seqZ 8 7; seqZ 15 6] 10 false v →
       v = 10 + fold_left Z.add (concat [seqZ 1 7; seqZ 8 7; seqZ 15 6]) 0.
Proof.
  apply (@accumulate_identity_any_distribution Z 0 Z.add DART_OP_SUM
           DART_TYPE_INT Z.add Z.add_assoc Z.add_comm Z.add_0_l Z.add_0_r).
  - discriminate.
  - intros _ a b. reflexivity.
Defined.

Lemma accumulate_associative_is_sequential_witness :
  ∃ x xs,
    concat [[7; 3]; []; [5; 9]] = x :: xs ∧
    returned <$> accumulate_min [[7; 3]; []; [5; 9]] 8 false
    = Some (Z.min 8 (fold_left Z.min xs x)) ∧
    ∀ v, accumulate_returns 0 Z.min DART_OP_MIN DART_TYPE_INT Z.min
           [[7; 3]; []; [5; 9]] 8 false v →
         v = Z.min 8 (fold_left Z.min xs x).
Proof.
  apply (@accumulate_associative_is_sequential Z 0 Z.min DART_OP_MIN
           DART_TYPE_INT Z.min Z.min_assoc Z.min_comm).
  - discriminate.
  - discriminate.
Defined.

Lemma accumulate_logs_iff_custom_and_all_empty_witness :
  ∃ o,
    accumulate_min [[7; 3]; []] 8 false = Some o ∧
    ((logged o = ["Found invalid reduction value!"%string] ∧
      custom_path DART_OP_MIN DART_TYPE_INT false = true ∧
      Forall (λ r, r = []) [[7; 3]; []])
     ∨ (logged o = [] ∧
        (custom_path DART_OP_MIN DART_TYPE_INT false = false
         ∨ Exists (λ r, r ≠ []) [[7; 3]; []]))).
Proof.
  apply (accumulate_logs_iff_custom_and_all_empty 0 Z.min DART_OP_MIN
           DART_TYPE_INT Z.min [[7; 3]; []] 8 false).
  discriminate.
Defined.

End Accumulate.

(** ** dash/GlobAsyncRef.h: [GlobAsyncRef<T>] *)

Module GlobAsyncRef.
Import Dart.

(** Native addresses are 64 bits wide; [nullptr] is address zero. *)
Definition nullptr : Z := 0.

(** [reinterpret_cast<char*>(p) + offset] with a [size_t] offset: the
    address [offset] bytes further, in 64-bit arithmetic. *)
Definition advance_native (p offset : Z) : Z := (p + offset) mod 2 ^ 64.

(** [class GlobAsyncRef<T>]: the three data members.  The element type [T]
    only types the reference. *)
Record GlobAsyncRef (T : Type) := MkGlobAsyncRef {
  _gptr : dart_gptr_t;
  _lptr : Z;
  _is_local : bool
}.
Arguments MkGlobAsyncRef {T} _ _ _.
Arguments _gptr {T} _.
Arguments _lptr {T} _.
Arguments _is_local {T} _.

(** The default member initialisers:
    [_gptr = DART_GPTR_NULL], [_lptr = nullptr], [_is_local = false]. *)
Definition default_initialized (T : Type) : GlobAsyncRef T :=
  {| _gptr := DART_GPTR_NULL; _lptr := nullptr; _is_local := false |}.

(** The private constructor [GlobAsyncRef(parent, offset)] for a member of
    the referenced struct; [None] when the assertion on
    [dart_gptr_incaddr]'s return value fails. *)
Definition member_ctor {ParentT : Type} (T : Type)
    (parent : GlobAsyncRef ParentT) (offset : Z) : option (GlobAsyncRef T) :=
  let lptr := if _is_local parent then advance_native (_lptr parent) offset
              else nullptr in
  let '(ret, gptr) := dart_gptr_incaddr (_gptr parent) offset in
  match DASH_ASSERT_RETURNS ret DART_OK with
  | Returned =>
      Some {| _gptr := gptr; _lptr := lptr; _is_local := _is_local parent |}
  | AssertionFailed => None
  end.

(** [is_local()] and [dart_gptr()]. *)
Definition is_local {T} (r : GlobAsyncRef T) : bool := _is_local r.
Definition dart_gptr {T} (r : GlobAsyncRef T) : dart_gptr_t := _gptr r.

(** [member<MEMTYPE>(size_t offs)]. *)
Definition member {T : Type} (MEMTYPE : Type) (r : GlobAsyncRef T) (offs : Z)
  : option (GlobAsyncRef MEMTYPE) :=
  member_ctor MEMTYPE r offs.

(** A pointer to member [const MEMTYPE P::*mem], known by the byte offset
    [(size_t) &(reinterpret_cast<P*>(0)->*mem)] it designates. *)
Record pointer_to_member (P MEMTYPE : Type) := PointerToMember {
  member_offset : Z
}.
Arguments member_offset {P MEMTYPE} _.

(** [member(const MEMTYPE P::*mem)]. *)
Definition member_ptm {T P MEMTYPE : Type} (r : GlobAsyncRef T)
    (mem : pointer_to_member P MEMTYPE) : option (GlobAsyncRef MEMTYPE) :=
  let offs := member_offset mem in
  member MEMTYPE r offs.

(** [operator==]: same local and same global pointer. *)
Definition ref_eqb {T} (a b : GlobAsyncRef T) : bool :=
  bool_decide (_lptr a = _lptr b) && bool_decide (_gptr a = _gptr b).

(** The transport calls a reference makes. *)
Inductive dart_call :=
| call_flush (gptr : dart_gptr_t).

Section Flush.

(** What [dart_flush] reports for a global pointer is the transport's
    business. *)
Variable dart_flush_ret : dart_gptr_t → dart_ret_t.

(** [flush()]: the transport calls made and how the call ends. *)
Definition flush {T} (r : GlobAsyncRef T) : list dart_call * completion :=
  if negb (DART_GPTR_ISNULL (_gptr r)) then
    ([call_flush (_gptr r)],
     DASH_ASSERT_RETURNS (dart_flush_ret (_gptr r)) DART_OK)
  else ([], Returned).

(** C10.  [flush()] on a reference whose global pointer is the null sentinel,
    a default-initialised one for instance, makes no transport call and
    returns; the flush is issued exactly when the global pointer is not
    null, whether or not the reference is local. *)
Theorem flush_issued_iff_gptr_not_null (T : Type) :
  (∀ r : GlobAsyncRef T,
     DART_GPTR_ISNULL (_gptr r) = true → flush r = ([], Returned)) ∧
  flush (default_initialized T) = ([], Returned) ∧
  (∀ r : GlobAsyncRef T,
     call_flush (_gptr r) ∈ (flush r).1 ↔ DART_GPTR_ISNULL (_gptr r) = false) ∧
  (∀ r : GlobAsyncRef T,
     DART_GPTR_ISNULL (_gptr r) = false →
     (flush r).1 = [call_flush (_gptr r)]) ∧
  (∀ gptr lptr lptr' loc loc',
     flush (T := T) (MkGlobAsyncRef gptr lptr loc)
     = flush (T := T) (MkGlobAsyncRef gptr lptr' loc')).
Proof.
  repeat split.
  - intros r Hnull. unfold flush. by rewrite Hnull.
  - unfold flush. destruct (DART_GPTR_ISNULL (_gptr r)); cbn; [|done].
    by intros ?%elem_of_nil.
  - intros Hnull. unfold flush. rewrite Hnull. cbn. apply list_elem_of_here.
  - intros r Hnull. unfold flush. by rewrite Hnull.
Qed.

End Flush.

(** Modelled from the spec: [GlobRef<T>] ([dash/GlobRef.h] is not among the
    sources).  A global reference is a global pointer plus a cached local
    address when local, and [member(offset)] produces a [GlobalRef<M>] with
    [gptr = gptr + offset] and, if local, [lptr = lptr + offset]. *)
Record GlobRef (T : Type) := MkGlobRef {
  globref_gptr : dart_gptr_t;
  globref_lptr : Z;
  globref_is_local : bool
}.
Arguments MkGlobRef {T} _ _ _.
Arguments globref_gptr {T} _.
Arguments globref_lptr {T} _.
Arguments globref_is_local {T} _.

Definition globref_member {T : Type} (MEMTYPE : Type) (r : GlobRef T)
    (offs : Z) : GlobRef MEMTYPE :=
  {| globref_gptr := (dart_gptr_incaddr (globref_gptr r) offs).2;
     globref_lptr := if globref_is_local r
                     then advance_native (globref_lptr r) offs else nullptr;
     globref_is_local := globref_is_local r |}.

Definition globref_member_ptm {T P MEMTYPE : Type} (r : GlobRef T)
    (mem : pointer_to_member P MEMTYPE) : GlobRef MEMTYPE :=
  globref_member MEMTYPE r (member_offset mem).

(** C7.  For a [GlobAsyncRef] [r], and likewise for a [GlobRef],
    [r.member<M>(o)] is a reference of the member type [M]: its global
    pointer is [r]'s advanced by [o] bytes (same segment and unit, offset
    plus [o] in the 64-bit offset field), its locality flag is [r]'s, and
    when [r] is local its local pointer is [r]'s advanced by [o] bytes in
    64-bit address arithmetic, which is [r]'s plus [o] unless that leaves
    the address space; when [r] is not local it is null.  The
    pointer-to-member overload is [member] at the member's offset. *)
Theorem member_advances_by_offset (T M : Type) (o : Z) :
  (∀ r : GlobAsyncRef T,
     ∃ m : GlobAsyncRef M,
       member M r o = Some m ∧
       segid (dart_gptr m) = segid (dart_gptr r) ∧
       unitid (dart_gptr m) = unitid (dart_gptr r) ∧
       addr_or_offs (dart_gptr m)
       = (addr_or_offs (dart_gptr r) + o) mod 2 ^ 64 ∧
       (0 ≤ addr_or_offs (dart_gptr r) → 0 ≤ o →
        addr_or_offs (dart_gptr r) + o < 2 ^ 64 →
        addr_or_offs (dart_gptr m) = addr_or_offs (dart_gptr r) + o) ∧
       is_local m = is_local r ∧
       (is_local r = true → _lptr m = (_lptr r + o) mod 2 ^ 64) ∧
       (is_local r = true → 0 ≤ _lptr r → 0 ≤ o → _lptr r + o < 2 ^ 64 →
        _lptr m = _lptr r + o) ∧
       (is_local r = false → _lptr m = nullptr) ∧
       (∀ (P : Type) (mem : pointer_to_member P M),
          member_offset mem = o → member_ptm r mem = Some m)) ∧
  (∀ r : GlobRef T,
     segid (globref_gptr (globref_member M r o)) = segid (globref_gptr r) ∧
     unitid (globref_gptr (globref_member M r o)) = unitid (globref_gptr r) ∧
     addr_or_offs (globref_gptr (globref_member M r o))
     = (addr_or_offs (globref_gptr r) + o) mod 2 ^ 64 ∧
     (0 ≤ addr_or_offs (globref_gptr r) → 0 ≤ o →
      addr_or_offs (globref_gptr r) + o < 2 ^ 64 →
      addr_or_offs (globref_gptr (globref_member M r o))
      = addr_or_offs (globref_gptr r) + o) ∧
     globref_is_local (globref_member M r o) = globref_is_local r ∧
     (globref_is_local r = true →
      globref_lptr (globref_member M r o)
      = (globref_lptr r + o) mod 2 ^ 64) ∧
     (globref_is_local r = true → 0 ≤ globref_lptr r → 0 ≤ o →
      globref_lptr r + o < 2 ^ 64 →
      globref_lptr (globref_member M r o) = globref_lptr r + o) ∧
     (globref_is_local r = false →
      globref_lptr (globref_member M r o) = nullptr) ∧
     (∀ (P : Type) (mem : pointer_to_member P M),
        member_offset mem = o →
        globref_member_ptm r mem = globref_member M r o)).
Proof.
  split.
  - intros r.
    exists {| _gptr := (dart_gptr_incaddr (_gptr r) o).2;
              _lptr := if _is_local r then advance_native (_lptr r) o
                       else nullptr;
              _is_local := _is_local r |}.
    split; [reflexivity|]. unfold dart_gptr, is_local, advance_native. cbn.
    repeat split; try done.
    + intros ???. by rewrite Z.mod_small by lia.
    + by intros ->.
    + intros -> ???. by rewrite Z.mod_small by lia.
    + by intros ->.
    + intros P mem <-. reflexivity.
  - intros r. unfold globref_member_ptm, globref_member, advance_native. cbn.
    repeat split; try done.
    + intros ???. by rewrite Z.mod_small by lia.
    + by intros ->.
    + intros -> ???. by rewrite Z.mod_small by lia.
    + by intros ->.
    + by intros P mem <-.
Qed.

(** At the end of the address space the local pointer wraps, as the
    offset field of the global pointer does. *)
Example member_wraps :
  member (T := Z) Z (MkGlobAsyncRef (DartGptr 1 3 64) 4096 true) (2 ^ 64 - 1)
  = Some (MkGlobAsyncRef (DartGptr 1 3 63) 4095 true).
Proof. reflexivity. Qed.

(** A struct [{ int a; double b; }] referenced at offset 64 of unit 1's
    portion, locally at address 4096: the reference to [b] (offset 8). *)
Example member_b :
  member (T := Z * Z) Z (MkGlobAsyncRef (DartGptr 1 3 64) 4096 true) 8
  = Some (MkGlobAsyncRef (DartGptr 1 3 72) 4104 true).
Proof. reflexivity. Qed.

(** *** Construction and nested members *)

Section Constructors.

(** [GlobPtr::is_local()] and the cast of a global pointer to the native
    pointer type [T*] are declared in [dash/GlobPtr.h]; they are taken as
    parameters. *)
Variable gptr_is_local : dart_gptr_t → bool.
Variable gptr_to_native : dart_gptr_t → Z.

(** [explicit GlobAsyncRef(dart_gptr_t dart_gptr)]:
    [_gptr(dart_gptr)], [_is_local = gptr.is_local()], and
    [_lptr] the cast of [gptr] to [T*] only when local.  The constructor from a
    [GlobPtr] has the same body on [gptr.dart_gptr()]; those from a
    [GlobConstPtr] and from a [GlobRef] delegate to this one. *)
Definition from_dart_gptr (T : Type) (dart_gptr : dart_gptr_t)
  : GlobAsyncRef T :=
  let is_local := gptr_is_local dart_gptr in
  {| _gptr := dart_gptr;
     _lptr := if is_local then gptr_to_native dart_gptr else nullptr;
     _is_local := is_local |}.

(** A reference that is not local carries no local pointer. *)
Definition lptr_only_if_local {T} (r : GlobAsyncRef T) : Prop :=
  _is_local r = false → _lptr r = nullptr.

(** The references a program can hold: built from a global pointer, or a
    member, at some offset, of one it holds. *)
Inductive reachable : ∀ T : Type, GlobAsyncRef T → Prop :=
| reachable_ctor T gptr : reachable T (from_dart_gptr T gptr)
| reachable_member T M (r : GlobAsyncRef T) (m : GlobAsyncRef M) o :
    reachable T r → member M r o = Some m → reachable M m.

(** Every reference a program can hold keeps the invariant, however many
    members deep: its local pointer is set only if it is local. *)
Theorem reachable_lptr_only_if_local (T : Type) (r : GlobAsyncRef T) :
  reachable T r → lptr_only_if_local r.
Proof.
  induction 1 as [ T gptr | T M r m o _ _ Hm ]; unfold lptr_only_if_local.
  - cbn. by intros ->.
  - unfold member, member_ctor in Hm. cbn in Hm.
    rewrite DASH_ASSERT_RETURNS_same in Hm. injection Hm as <-.
    cbn. by intros ->.
Qed.

End Constructors.

Lemma reachable_lptr_only_if_local_witness :
  lptr_only_if_local
    (MkGlobAsyncRef (T := Z) (DartGptr 1 3 72) nullptr false).
Proof.
  apply (reachable_lptr_only_if_local (λ _, false) (λ _, 4096) Z).
  apply (reachable_member _ _ (Z * Z) Z
           (from_dart_gptr (λ _, false) (λ _, 4096) (Z * Z) (DartGptr 1 3 64))
           _ 8).
  - constructor.
  - reflexivity.
Defined.

(** Members nest: the member at offset [o2] of the member at offset [o1] is
    the member at offset [o1 + o2], global pointer, local pointer and
    locality alike. *)
Theorem member_of_member (T M1 M2 : Type) (r : GlobAsyncRef T)
    (m1 : GlobAsyncRef M1) (o1 o2 : Z) :
  member M1 r o1 = Some m1 →
  member M2 m1 o2 = member M2 r (o1 + o2).
Proof.
  unfold member, member_ctor. cbn. rewrite !DASH_ASSERT_RETURNS_same.
  intros [= <-]. cbn. f_equal. f_equal.
  - f_equal. rewrite Zplus_mod_idemp_l. f_equal. lia.
  - destruct (_is_local r); [|done]. unfold advance_native.
    rewrite Zplus_mod_idemp_l. f_equal. lia.
Qed.

(** A struct at offset 64 with an inner struct at offset 8, whose second
    field is at offset 4 of it. *)
Lemma member_of_member_witness :
  member Z (MkGlobAsyncRef (T := Z * Z) (DartGptr 1 3 72) 4104 true) 4
  = member Z (MkGlobAsyncRef (T := Z * (Z * Z)) (DartGptr 1 3 64) 4096 true)
           (8 + 4).
Proof.
  apply (member_of_member (Z * (Z * Z)) (Z * Z) Z
           (MkGlobAsyncRef (DartGptr 1 3 64) 4096 true)).
  reflexivity.
Defined.

(** *** Assignment *)

Section Assignment.

(** The element type, the bytes of memory, and the object representation of
    a [T]: its [sizeof(T)] bytes, lowest address first. *)
Context {T byte : Type}.
Variable sizeof_T : nat.
Variable object_bytes : T → list byte.
Hypothesis object_bytes_length : ∀ v, length (object_bytes v) = sizeof_T.

(** The calling unit's memory, byte by byte, and the puts handed to the
    transport, in order. *)
Record memory_state := MemoryState {
  local_memory : gmap Z byte;
  puts : list (dart_gptr_t * T)
}.

(** A store of [bytes] at [address] and the addresses that follow. *)
Fixpoint store_bytes (address : Z) (bytes : list byte) (mem : gmap Z byte)
  : gmap Z byte :=
  match bytes with
  | [] => mem
  | b :: bytes' => <[address := b]> (store_bytes (address + 1) bytes' mem)
  end.

(** What [dart_put_blocking_local] reports is the transport's business. *)
Variable dart_put_ret : dart_gptr_t → T → dart_ret_t.

(** [operator=(const_value_type & new_value)]: [*_lptr = new_value], a store
    of the [sizeof(T)] bytes of the value at [_lptr], when the reference is
    local; [dart_put_blocking_local(_gptr, &new_value, ds.nelem, ds.dtype)]
    otherwise.  It returns [*this]. *)
Definition assign (r : GlobAsyncRef T) (new_value : T) (st : memory_state)
  : completion * memory_state :=
  if _is_local r then
    (Returned,
     {| local_memory :=
          store_bytes (_lptr r) (object_bytes new_value) (local_memory st);
        puts := puts st |})
  else
    (DASH_ASSERT_RETURNS (dart_put_ret (_gptr r) new_value) DART_OK,
     {| local_memory := local_memory st;
        puts := puts st ++ [(_gptr r, new_value)] |}).

(** [set(val)], [put(tptr)] and [put(tref)] are [operator=] on the value. *)
Definition set (r : GlobAsyncRef T) (val : T) := assign r val.
Definition put (r : GlobAsyncRef T) (tref : T) := assign r tref.

Lemma lookup_store_bytes (address : Z) (bytes : list byte)
    (mem : gmap Z byte) (k : Z) :
  store_bytes address bytes mem !! k
  = if decide (address ≤ k < address + Z.of_nat (length bytes))
    then bytes !! Z.to_nat (k - address) else mem !! k.
Proof.
  revert address. induction bytes as [|b bytes IH]; intros address.
  - cbn. rewrite decide_False by lia. done.
  - cbn [store_bytes length].
    destruct (decide (k = address)) as [->|Hk].
    + rewrite lookup_insert_eq, decide_True by lia.
      by rewrite Z.sub_diag.
    + rewrite lookup_insert_ne by done. rewrite IH.
      destruct (decide (address + 1 ≤ k
                        < address + 1 + Z.of_nat (length bytes))) as [Hin|Hout].
      * rewrite decide_True by lia.
        replace (Z.to_nat (k - address))
          with (S (Z.to_nat (k - (address + 1)))) by lia.
        done.
      * rewrite decide_False by lia. done.
Qed.

(** Assigning to a member of a struct reference touches one place.  When the
    struct is local and the member lies within the address space, the bytes
    of the value are stored from the member's address on (the struct's
    address advanced by the member's offset), every byte outside those
    [sizeof(T)] addresses keeps its content, and the transport is not
    called.  When it is not, local memory stays as it is and
    exactly one put is issued, to the struct's global pointer advanced by
    the offset. *)
Theorem assign_member_touches_one_place (P : Type) (parent : GlobAsyncRef P)
    (m : GlobAsyncRef T) (o : Z) (v : T) (st : memory_state) :
  member T parent o = Some m →
  (is_local parent = true →
   _lptr m + Z.of_nat sizeof_T ≤ 2 ^ 64 →
   _lptr m = advance_native (_lptr parent) o ∧
   (assign m v st).1 = Returned ∧
   puts (assign m v st).2 = puts st ∧
   (∀ (i : nat) b, object_bytes v !! i = Some b →
      local_memory (assign m v st).2 !! (_lptr m + Z.of_nat i) = Some b) ∧
   (∀ a, ¬ (_lptr m ≤ a < _lptr m + Z.of_nat sizeof_T) →
      local_memory (assign m v st).2 !! a = local_memory st !! a)) ∧
  (is_local parent = false →
   local_memory (assign m v st).2 = local_memory st ∧
   puts (assign m v st).2
   = puts st ++ [((dart_gptr_incaddr (_gptr parent) o).2, v)]).
Proof.
  unfold member, member_ctor, is_local. cbn.
  rewrite DASH_ASSERT_RETURNS_same. intros [= <-].
  unfold assign. cbn. split; intros ->; cbn; [|done].
  intros _. split; [done|]. split; [done|]. split; [done|]. split.
  - intros i b Hb. rewrite lookup_store_bytes.
    rewrite decide_True by (apply lookup_lt_Some in Hb; lia).
    by replace (Z.to_nat (advance_native (_lptr parent) o + Z.of_nat i
                          - advance_native (_lptr parent) o)) with i by lia.
  - intros a Ha. rewrite lookup_store_bytes, object_bytes_length.
    by rewrite decide_False.
Qed.

(** Writes through two members of a local struct that lie within the address
    space and whose bytes do not overlap do not interfere: either order
    leaves the same memory. *)
Theorem assign_members_commute (P : Type) (parent : GlobAsyncRef P)
    (m1 m2 : GlobAsyncRef T) (o1 o2 : Z) (v1 v2 : T) (st : memory_state) :
  is_local parent = true →
  member T parent o1 = Some m1 →
  member T parent o2 = Some m2 →
  _lptr m1 + Z.of_nat sizeof_T ≤ 2 ^ 64 →
  _lptr m2 + Z.of_nat sizeof_T ≤ 2 ^ 64 →
  _lptr m1 + Z.of_nat sizeof_T ≤ _lptr m2
  ∨ _lptr m2 + Z.of_nat sizeof_T ≤ _lptr m1 →
  (assign m2 v2 (assign m1 v1 st).2).2 = (assign m1 v1 (assign m2 v2 st).2).2.
Proof.
  unfold member, member_ctor, is_local. cbn.
  rewrite !DASH_ASSERT_RETURNS_same. intros Hloc [= <-] [= <-]. cbn.
  rewrite Hloc. intros _ _ Hdisjoint.
  unfold assign. cbn. f_equal.
  apply map_eq. intros k. rewrite !lookup_store_bytes, !object_bytes_length.
  repeat case_decide; try done; lia.
Qed.

End Assignment.

(** A local struct of two [int]s at address 4096, its fields at offsets 0
    and 4; an [int] is four bytes, lowest first. *)
Definition int_bytes (v : Z) : list Z :=
  [v mod 256; (v / 256) mod 256; (v / 65536) mod 256; (v / 16777216) mod 256].

Lemma assign_member_touches_one_place_witness :
  local_memory
    (assign int_bytes (λ _ _, DART_OK)
       (MkGlobAsyncRef (T := Z) (DartGptr 1 3 68) 4100 true) 517
       (MemoryState ∅ [])).2 !! (4100 + 1) = Some 2.
Proof.
  destruct (assign_member_touches_one_place 4 int_bytes (λ _, eq_refl)
              (λ _ _, DART_OK) (Z * Z)
              (MkGlobAsyncRef (DartGptr 1 3 64) 4096 true)
              (MkGlobAsyncRef (DartGptr 1 3 68) 4100 true) 4 517
              (MemoryState ∅ [])) as [Hlocal _].
  - reflexivity.
  - destruct (Hlocal eq_refl) as (_ & _ & _ & Hstored & _).
    + by vm_compute.
    + apply (Hstored 1%nat 2). reflexivity.
Defined.

Lemma assign_members_commute_witness :
  (assign int_bytes (λ _ _, DART_OK)
     (MkGlobAsyncRef (T := Z) (DartGptr 1 3 68) 4100 true) 5
     (assign int_bytes (λ _ _, DART_OK)
        (MkGlobAsyncRef (T := Z) (DartGptr 1 3 64) 4096 true) 4
        (MemoryState ∅ [])).2).2
  = (assign int_bytes (λ _ _, DART_OK)
       (MkGlobAsyncRef (T := Z) (DartGptr 1 3 64) 4096 true) 4
       (assign int_bytes (λ _ _, DART_OK)
          (MkGlobAsyncRef (T := Z) (DartGptr 1 3 68) 4100 true) 5
          (MemoryState ∅ [])).2).2.
Proof.
  apply (assign_members_commute 4 int_bytes (λ _, eq_refl) (λ _ _, DART_OK)
           (Z * Z) (MkGlobAsyncRef (DartGptr 1 3 64) 4096 true) _ _ 0 4).
  - reflexivity.
  - reflexivity.
  - reflexivity.
  - by vm_compute.
  - by vm_compute.
  - left. cbn. lia.
Defined.

End GlobAsyncRef.

(** ** dash/GlobAsyncRef.h: [Future<GlobRef<T>>] *)

Module Future.
Import Dart.

Section WithValue.

(** [value_t]. *)
Context {T : Type}.

(** The calling unit's memory, by address.  A location holds a value of
    [T], a pointer, or nothing determinate yet (fresh storage from
    [new value_t]).  Reading a [T] where a pointer was stored, or the
    converse, has no defined result. *)
Inductive cell :=
| cell_indeterminate
| cell_value (v : T)
| cell_pointer (a : Z).

(** A non-blocking get in flight: where the element goes and where it comes
    from. *)
Record transfer := Transfer { dest : Z; src : dart_gptr_t }.

Inductive dart_call :=
| call_get_handle (dest : Z) (gptr : dart_gptr_t)
| call_wait (handle : nat).

(** Modelled from the spec: the state the transport works on.  Global memory
    maps a global pointer to the element stored there; a handle numbers a
    transfer started by [get_handle]. *)
Record dart_state := DartState {
  local_mem : gmap Z cell;
  global_mem : dart_gptr_t → option T;
  handles : list transfer;
  calls : list dart_call
}.

(** Modelled from the spec: [get_handle(dst, gptr, nelem, dtype, &handle)]
    starts the transfer of one element from [gptr] to the local address
    [dst] and returns a handle for it. *)
Definition dart_get_handle (dst : Z) (gptr : dart_gptr_t) (st : dart_state)
  : nat * dart_state :=
  (length (handles st),
   {| local_mem := local_mem st;
      global_mem := global_mem st;
      handles := handles st ++ [Transfer dst gptr];
      calls := calls st ++ [call_get_handle dst gptr] |}).

(** Modelled from the spec: [wait(handle)] blocks until the transfer is
    complete: the element read from global memory is then stored at the
    transfer's destination.  The call is made, and recorded, whether or not
    the transport can serve it. *)
Definition dart_wait (handle : nat) (st : dart_state)
  : dart_ret_t * dart_state :=
  let called (mem : gmap Z cell) :=
    {| local_mem := mem;
       global_mem := global_mem st;
       handles := handles st;
       calls := calls st ++ [call_wait handle] |} in
  match handles st !! handle with
  | Some tr =>
      match global_mem st (src tr) with
      | Some v => (DART_OK, called (<[dest tr := cell_value v]> (local_mem st)))
      | None => (DART_ERR_INVAL, called (local_mem st))
      end
  | None => (DART_ERR_INVAL, called (local_mem st))
  end.

(** [class Future<GlobRef<T>>].  The member [_valptr] is a
    [std::unique_ptr<value_t>]: an object of the future, at the address
    [valptr_object], whose content is the address of the value buffer. *)
Record Future := MkFuture {
  valptr_object : Z;
  _handle : nat;
  _completed : bool
}.

(** [Future(dash::GlobAsyncRef<T>& aref) : _valptr(new value_t)
      { dart_get_handle(&_valptr, aref.dart_gptr(), ds.nelem, ds.dtype,
                        &_handle); }]
    for a future whose member [_valptr] lives at [this_valptr] and for which
    [new value_t] returns the address [buffer].  The constructor from a
    [GlobRef<T>] has the same body. *)
Definition Future_ctor (this_valptr buffer : Z) (aref_gptr : dart_gptr_t)
    (st : dart_state) : Future * dart_state :=
  let st1 :=
    {| local_mem := <[this_valptr := cell_pointer buffer]>
                      (<[buffer := cell_indeterminate]> (local_mem st));
       global_mem := global_mem st;
       handles := handles st;
       calls := calls st |} in
  let '(handle, st2) := dart_get_handle this_valptr aref_gptr st1 in
  ({| valptr_object := this_valptr; _handle := handle; _completed := false |},
   st2).

(** [wait()]. *)
Definition wait (f : Future) (st : dart_state)
  : completion * Future * dart_state :=
  if negb (_completed f) then
    let '(ret, st') := dart_wait (_handle f) st in
    match DASH_ASSERT_RETURNS ret DART_OK with
    | Returned =>
        (Returned,
         {| valptr_object := valptr_object f; _handle := _handle f;
            _completed := true |}, st')
    | AssertionFailed => (AssertionFailed, f, st')
    end
  else (Returned, f, st).

(** [*_valptr]: the pointer object is read, then the buffer it points to. *)
Definition deref_valptr (f : Future) (st : dart_state) : option T :=
  match local_mem st !! valptr_object f with
  | Some (cell_pointer buffer) =>
      match local_mem st !! buffer with
      | Some (cell_value v) => Some v
      | _ => None
      end
  | _ => None
  end.

(** [get()]: [if (!_completed) wait(); return *_valptr;].  The value is
    [None] when the read has no defined result, or when the assertion in
    [wait()] stops the call. *)
Definition get (f : Future) (st : dart_state)
  : option T * Future * dart_state :=
  if negb (_completed f) then
    let '(outcome, f', st') := wait f st in
    match outcome with
    | Returned => (deref_valptr f' st', f', st')
    | AssertionFailed => (None, f', st')
    end
  else (deref_valptr f st, f, st).

(** The parts of the round trip that hold: the constructor starts the get at
    once, for the referenced element, and [get()] on a fresh future waits for
    that transfer. *)
Lemma Future_ctor_issues_get this_valptr buffer gptr st :
  let '(f, st') := Future_ctor this_valptr buffer gptr st in
  calls st' = calls st ++ [call_get_handle this_valptr gptr] ∧
  handles st' !! _handle f = Some (Transfer this_valptr gptr) ∧
  _completed f = false.
Proof.
  cbn. split; [done|]. split; [|done].
  rewrite lookup_app_r by done. by rewrite Nat.sub_diag.
Qed.

Lemma get_implies_wait this_valptr buffer gptr st v :
  global_mem st gptr = Some v →
  let '(f, st1) := Future_ctor this_valptr buffer gptr st in
  let '(_, f', st2) := get f st1 in
  _completed f' = true ∧ calls st2 = calls st1 ++ [call_wait (_handle f)].
Proof.
  intros Hv. cbn. unfold dart_wait. cbn.
  rewrite lookup_app_r by done. rewrite Nat.sub_diag. cbn.
  by rewrite Hv, DASH_ASSERT_RETURNS_same.
Qed.

(** The transfer lands on the pointer object, not on the buffer: after
    [get()] the member [_valptr] holds the transferred element, the buffer is
    as [new] left it, and [*_valptr] has no defined result. *)
Lemma get_reads_clobbered_valptr this_valptr buffer gptr st v :
  this_valptr ≠ buffer →
  global_mem st gptr = Some v →
  let '(f, st1) := Future_ctor this_valptr buffer gptr st in
  let '(result, _, st2) := get f st1 in
  result = None ∧
  local_mem st2 !! this_valptr = Some (cell_value v) ∧
  local_mem st2 !! buffer = Some cell_indeterminate.
Proof.
  intros Hne Hv. cbn. unfold dart_wait. cbn.
  rewrite lookup_app_r by done. rewrite Nat.sub_diag. cbn.
  rewrite Hv, DASH_ASSERT_RETURNS_same. unfold deref_valptr. cbn.
  rewrite !lookup_insert_eq. split; [done|]. split; [done|].
  rewrite !lookup_insert_ne by done. by rewrite lookup_insert_eq.
Qed.

End WithValue.

(** Scenario S5 on an [Array<int>]: element [i] lives on unit 1 at offset 8
    of segment 1 and holds 789; the calling unit builds
    [Future(arr.async[i])] with [_valptr] at address 1000 and the buffer at
    address 2000. *)
Definition arr_i : dart_gptr_t := DartGptr 1 1 8.

Definition after_barrier : dart_state (T := Z) :=
  {| local_mem := ∅;
     global_mem := λ g, if decide (g = arr_i) then Some 789 else None;
     handles := [];
     calls := [] |}.

Lemma get_implies_wait_witness :
  let '(f, st1) := Future_ctor 1000 2000 arr_i after_barrier in
  let '(_, f', st2) := get f st1 in
  _completed f' = true ∧ calls st2 = calls st1 ++ [call_wait (_handle f)].
Proof.
  apply (get_implies_wait 1000 2000 arr_i after_barrier 789). reflexivity.
Defined.

(** C5 at this input.  The constructor issues the get at once and [get()]
    waits for it, but the destination handed to [dart_get_handle] is the
    address of [_valptr] itself (1000), not of the buffer (2000): [get()]
    does not return the 789 stored at [arr[i]]. *)
Theorem Future_get_S5 :
  let '(f, st1) := Future_ctor 1000 2000 arr_i after_barrier in
  let '(result, f', st2) := get f st1 in
  calls st1 = [call_get_handle 1000 arr_i] ∧
  calls st2 = [call_get_handle 1000 arr_i; call_wait 0] ∧
  _completed f' = true ∧
  global_mem st2 arr_i = Some 789 ∧
  result = None ∧
  local_mem st2 !! 1000 = Some (cell_value 789) ∧
  local_mem st2 !! 2000 = Some cell_indeterminate.
Proof. vm_compute. repeat split. Qed.

(** *** Polling, and waiting more than once *)

Section Polling.

Context {T : Type}.

(** [dart_test_local(handle, &flag)] polls a transfer without blocking; what
    it reports, and what it does to the transport's state, is the
    transport's business. *)
Variable dart_test_local :
  nat → dart_state (T := T) → dart_ret_t * Z * dart_state (T := T).

(** [test()]: how the call ends, the value returned, the future and the
    state afterwards. *)
Definition test (f : Future) (st : dart_state (T := T))
  : completion * bool * Future * dart_state (T := T) :=
  if negb (_completed f) then
    let '(ret, flag, st') := dart_test_local (_handle f) st in
    match DASH_ASSERT_RETURNS ret DART_OK with
    | Returned =>
        let completed := if decide (flag ≠ 0) then true else false in
        (Returned, completed,
         {| valptr_object := valptr_object f; _handle := _handle f;
            _completed := completed |}, st')
    | AssertionFailed => (AssertionFailed, false, f, st')
    end
  else (Returned, _completed f, f, st).

(** [test()] answers with the future's completion flag, and completion is
    final: once [test()] has answered [true], a further [test()] does not
    poll and [wait()] does not wait, both leaving the transport's state as it
    is. *)
Theorem test_true_is_final (f f1 : Future) (st st1 : dart_state) (b : bool) :
  test f st = (Returned, b, f1, st1) →
  b = _completed f1 ∧
  (b = true →
   test f1 st1 = (Returned, true, f1, st1) ∧
   wait f1 st1 = (Returned, f1, st1) ∧
   get f1 st1 = (deref_valptr f1 st1, f1, st1)).
Proof.
  unfold test. destruct (_completed f) eqn:Hc; cbn.
  - intros [= <- <- <-]. split; [done|]. intros _.
    unfold wait, get. by rewrite Hc.
  - destruct (dart_test_local (_handle f) st) as [[ret flag] st'].
    destruct (DASH_ASSERT_RETURNS ret DART_OK); [|done].
    intros [= <- <- <-]. split; [done|]. cbn.
    unfold wait, get. cbn. by intros ->.
Qed.

End Polling.

Section Waiting.

Context {T : Type}.

(** The calls a program makes on a future to obtain its value. *)
Inductive future_op := op_wait | op_get.

(** One call, and whether the program goes on after it: it does not when
    the assertion in [wait()] fails, nor when [get()] reads a value that is
    not defined. *)
Definition run_op (o : future_op) (f : Future) (st : dart_state (T := T))
  : bool * Future * dart_state (T := T) :=
  match o with
  | op_wait =>
      let '(outcome, f', st') := wait f st in
      (match outcome with Returned => true | AssertionFailed => false end,
       f', st')
  | op_get =>
      let '(result, f', st') := get f st in
      (match result with Some _ => true | None => false end, f', st')
  end.

(** A sequence of calls, up to the first the program does not survive. *)
Fixpoint run_ops (ops : list future_op) (f : Future)
    (st : dart_state (T := T)) : bool * Future * dart_state (T := T) :=
  match ops with
  | [] => (true, f, st)
  | o :: ops' =>
      let '(ok, f', st') := run_op o f st in
      if ok then run_ops ops' f' st' else (false, f', st')
  end.

Lemma DASH_ASSERT_RETURNS_inval :
  DASH_ASSERT_RETURNS DART_ERR_INVAL DART_OK = AssertionFailed.
Proof. reflexivity. Qed.

Lemma wait_calls (f : Future) (st : dart_state (T := T)) :
  _completed f = false →
  calls (wait f st).2 = calls st ++ [call_wait (_handle f)] ∧
  ((wait f st).1.1 = Returned → _completed (wait f st).1.2 = true).
Proof.
  intros Hc. unfold wait, dart_wait. rewrite Hc. cbn.
  destruct (handles st !! _handle f) as [tr|]; cbn.
  - destruct (global_mem st (src tr)) as [v|]; cbn.
    + by rewrite DASH_ASSERT_RETURNS_same.
    + by rewrite DASH_ASSERT_RETURNS_inval.
  - by rewrite DASH_ASSERT_RETURNS_inval.
Qed.

Lemma run_op_calls (o : future_op) (f : Future) (st : dart_state) :
  (_completed f = true →
   (run_op o f st).1.2 = f ∧ (run_op o f st).2 = st) ∧
  (_completed f = false →
   calls (run_op o f st).2 = calls st ++ [call_wait (_handle f)] ∧
   ((run_op o f st).1.1 = true → _completed (run_op o f st).1.2 = true)).
Proof.
  split; intros Hc.
  - destruct o; unfold run_op, get, wait; rewrite Hc; cbn; [done|].
    by destruct (deref_valptr f st).
  - destruct (wait_calls f st Hc) as [Hcalls Hdone].
    destruct o; unfold run_op, get; rewrite ?Hc; cbn;
      destruct (wait f st) as [[outcome f'] st']; cbn in *.
    + split; [done|]. by destruct outcome; [auto|].
    + destruct outcome; cbn.
      * split; [done|]. intros _. by apply Hdone.
      * done.
Qed.

Lemma run_ops_completed (ops : list future_op) (f : Future)
    (st : dart_state) :
  _completed f = true →
  (run_ops ops f st).1.2 = f ∧ (run_ops ops f st).2 = st.
Proof.
  revert f st. induction ops as [|o ops IH]; intros f st Hc; [done|].
  cbn. destruct (run_op_calls o f st) as [Hsame _].
  destruct (Hsame Hc) as [Hf Hst].
  destruct (run_op o f st) as [[ok f'] st']. cbn in *. subst f' st'.
  destruct ok; [by apply IH|done].
Qed.

(** However often [wait()] and [get()] are called on a future that is not
    yet completed, in whatever order, the transport is asked to wait for its
    handle exactly once, by the first of the calls; and if the program
    survives them all, the future ends completed. *)
Theorem dart_wait_at_most_once (ops : list future_op) (f : Future)
    (st : dart_state) :
  _completed f = false →
  calls (run_ops ops f st).2
  = calls st ++ match ops with
                | [] => []
                | _ :: _ => [call_wait (_handle f)]
                end ∧
  (ops ≠ [] → (run_ops ops f st).1.1 = true →
   _completed (run_ops ops f st).1.2 = true).
Proof.
  intros Hc. destruct ops as [|o ops]; cbn.
  - by rewrite app_nil_r.
  - destruct (run_op_calls o f st) as [_ Hfirst].
    destruct (Hfirst Hc) as [Hcalls Hdone].
    destruct (run_op o f st) as [[ok f'] st']. cbn in *.
    destruct ok; [|done].
    destruct (run_ops_completed ops f' st' (Hdone eq_refl)) as [Hf Hst].
    rewrite Hf, Hst. split; [done|]. intros _ _. by apply Hdone.
Qed.

End Waiting.

(** A poll that finds the transfer complete. *)
Lemma test_true_is_final_witness :
  wait (MkFuture 1000 0 true) after_barrier
  = (Returned, MkFuture 1000 0 true, after_barrier).
Proof.
  destruct (test_true_is_final (λ h st, (DART_OK, 1, st))
              (MkFuture 1000 0 false) (MkFuture 1000 0 true)
              after_barrier after_barrier true) as [_ Hfinal].
  - reflexivity.
  - destruct (Hfinal eq_refl) as (_ & Hwait & _). exact Hwait.
Defined.

(** Three [wait()]s on the future of scenario S5. *)
Lemma dart_wait_at_most_once_witness :
  calls (run_ops [op_wait; op_wait; op_wait]
           (Future_ctor 1000 2000 arr_i after_barrier).1
           (Future_ctor 1000 2000 arr_i after_barrier).2).2
  = [call_get_handle 1000 arr_i; call_wait 0].
Proof.
  apply (dart_wait_at_most_once [op_wait; op_wait; op_wait]
           (Future_ctor 1000 2000 arr_i after_barrier).1
           (Future_ctor 1000 2000 arr_i after_barrier).2).
  reflexivity.
Defined.

End Future.

(** ** The view algebra: [sub<d>(a, b, V)] *)

Module View.

(** Modelled from the spec: the view expressions ([dash/View.h], used by
    [NViewTest.cc]) are not among the sources; a view is kept here by what
    the claims observe of it, its cached per-dimension extents and offsets
    into the origin. *)
Record view := MkView {
  extents : list Z;
  offsets : list Z
}.

Definition ndim (v : view) : nat := length (extents v).
Definition extent (d : nat) (v : view) : option Z := extents v !! d.
Definition size (v : view) : Z := foldr Z.mul 1 (extents v).

(** Modelled from the spec: a container seen as a view names all of its
    index domain, from offset zero in every dimension. *)
Definition origin (exts : list Z) : view :=
  {| extents := exts; offsets := replicate (length exts) 0 |}.

(** Modelled from the spec: [sub<d>(a, b, V)] narrows dimension [d] of [V]'s
    domain to [[a, b)]; it requires [0 ≤ a ≤ b ≤ V.extent(d)] (a violated
    precondition gives no view) and preserves the rank. *)
Definition sub (d : nat) (a b : Z) (v : view) : option view :=
  e ← extents v !! d;
  o ← offsets v !! d;
  if decide (0 ≤ a ∧ a ≤ b ∧ b ≤ e) then
    Some {| extents := <[d := b - a]> (extents v);
            offsets := <[d := o + a]> (offsets v) |}
  else None.

Lemma sub_Some d a b v w :
  sub d a b v = Some w ↔
  ∃ e o, extents v !! d = Some e ∧ offsets v !! d = Some o ∧
         (0 ≤ a ∧ a ≤ b ∧ b ≤ e) ∧
         w = {| extents := <[d := b - a]> (extents v);
                offsets := <[d := o + a]> (offsets v) |}.
Proof.
  unfold sub. split.
  - destruct (extents v !! d) as [e|]; [|done].
    destruct (offsets v !! d) as [o|]; [|done]. cbn.
    case_decide; [|done]. intros [= <-]. by exists e, o.
  - intros (e & o & -> & -> & Hr & ->). cbn. by rewrite decide_True.
Qed.

(** Narrowing one dimension leaves the other dimensions as they were. *)
Lemma sub_other_dimension d d' a b v w :
  d ≠ d' → sub d a b v = Some w →
  extents w !! d' = extents v !! d' ∧ offsets w !! d' = offsets v !! d'.
Proof.
  intros Hd (e & o & _ & _ & _ & ->)%sub_Some. cbn.
  by rewrite !list_lookup_insert_ne.
Qed.

(** Scenario S2 on the 8 × 6 matrix of S1. *)
Example sub_S2_rows :
  extents <$> sub 0 1 3 (origin [8; 6]) = Some [2; 6].
Proof. reflexivity. Qed.

Example sub_S2_cols :
  extents <$> sub 1 2 5 (origin [8; 6]) = Some [8; 3].
Proof. reflexivity. Qed.

Example sub_S2_both :
  (sub 0 1 3 (origin [8; 6]) ≫= sub 1 2 5)
  = Some {| extents := [2; 3]; offsets := [1; 2] |} ∧
  (sub 1 2 5 (origin [8; 6]) ≫= sub 0 1 3)
  = Some {| extents := [2; 3]; offsets := [1; 2] |}.
Proof. split; reflexivity. Qed.

(** C6.  For distinct dimensions [d0 ≠ d1] and ranges valid in [V], the two
    orders of composing [sub<d0>(a, b, ·)] and [sub<d1>(c, d, ·)] both give a
    view, with equal extents and equal offsets. *)
Theorem sub_commutes (d0 d1 : nat) (a b c d : Z) (V : view) :
  d0 ≠ d1 →
  is_Some (sub d0 a b V) →
  is_Some (sub d1 c d V) →
  ∃ W01 W10,
    (sub d1 c d V ≫= sub d0 a b) = Some W01 ∧
    (sub d0 a b V ≫= sub d1 c d) = Some W10 ∧
    extents W01 = extents W10 ∧
    offsets W01 = offsets W10.
Proof.
  intros Hd [V0 H0] [V1 H1].
  destruct (sub_other_dimension d0 d1 a b V V0 Hd H0) as [He0 Ho0].
  destruct (sub_other_dimension d1 d0 c d V V1 (not_eq_sym Hd) H1) as [He1 Ho1].
  pose proof H0 as (e0 & o0 & Hle0 & Hlo0 & Hr0 & ->)%sub_Some.
  pose proof H1 as (e1 & o1 & Hle1 & Hlo1 & Hr1 & ->)%sub_Some.
  cbn in He0, Ho0, He1, Ho1.
  eexists _, _. rewrite H0, H1. cbn [mbind option_bind].
  split; [|split].
  - apply sub_Some. exists e0, o0. cbn. by rewrite He1, Ho1.
  - apply sub_Some. exists e1, o1. cbn. by rewrite He0, Ho0.
  - cbn. split; by apply list_insert_insert_ne.
Qed.

(** The views of [NViewTest.MatrixBlocked1DimLocalView] on four units: a
    20 × 12 matrix, [sub<0>(1, 3, ·)] and [sub<1>(2, 7, ·)]. *)
Lemma sub_commutes_witness :
  ∃ W01 W10,
    (sub 1 2 7 (origin [20; 12]) ≫= sub 0 1 3) = Some W01 ∧
    (sub 0 1 3 (origin [20; 12]) ≫= sub 1 2 7) = Some W10 ∧
    extents W01 = extents W10 ∧
    offsets W01 = offsets W10.
Proof.
  apply (sub_commutes 0 1 1 3 2 7 (origin [20; 12])).
  - discriminate.
  - eexists. reflexivity.
  - eexists. reflexivity.
Defined.

(** Views of views in one dimension, as in [sub<0>(r, r+1, nview_sub)] of
    [NViewTest.MatrixBlocked1DimSub]: narrowing dimension [d] to [[a, b)] and
    then, within that, to [[a', b')] is narrowing it to [[a + a', a + b')]
    at once. *)
Theorem sub_of_sub_same_dimension (d : nat) (a b a' b' : Z) (V W : view) :
  sub d a b V = Some W →
  is_Some (sub d a' b' W) →
  sub d a' b' W = sub d (a + a') (a + b') V.
Proof.
  intros (e & o & He & Ho & Hr & ->)%sub_Some [W' HW'].
  pose proof HW' as (e' & o' & He' & Ho' & Hr' & ->)%sub_Some.
  cbn in He', Ho'.
  assert (d < length (extents V))%nat by (by eapply lookup_lt_Some).
  assert (d < length (offsets V))%nat by (by eapply lookup_lt_Some).
  rewrite list_lookup_insert_eq in He' by done. injection He' as <-.
  rewrite list_lookup_insert_eq in Ho' by done. injection Ho' as <-.
  rewrite HW'. symmetry. apply sub_Some. exists e, o.
  split; [done|]. split; [done|]. split; [lia|]. cbn.
  rewrite !list_insert_insert_eq. f_equal; f_equal; lia.
Qed.

Lemma sub_of_sub_same_dimension_witness :
  sub 0 2 3 {| extents := [6; 12]; offsets := [1; 0] |}
  = sub 0 (1 + 2) (1 + 3) (origin [8; 12]).
Proof.
  apply (sub_of_sub_same_dimension 0 1 7 2 3 (origin [8; 12])).
  - reflexivity.
  - eexists. reflexivity.
Defined.

End View.

(** ** dash/util/PatternMetrics.h *)

Module PatternMetrics.

(** What [init_metrics] asks of a rank-2 pattern, with the extents of its
    index domain. *)
Record Pattern := MkPattern {
  extent : nat → Z;                 (* extent(d) *)
  blockspec_size : Z;               (* blockspec().size() *)
  teamspec_size : Z;                (* teamspec().size() *)
  block_offset : Z → Z * Z;         (* block(bi).offset(0), .offset(1) *)
  unit_at : Z * Z → Z;              (* unit_at({i, j}) *)
  blocksize : nat → Z               (* blocksize(d) *)
}.

(** Conversion to the 32-bit [int] the metrics are kept in. *)
Definition to_int (z : Z) : Z := (z + 2 ^ 31) mod 2 ^ 32 - 2 ^ 31.

(** The quotient [static_cast<float>(num) / static_cast<float>(den)], kept
    as its two operands. *)
Record float_quotient := FloatQuotient { num : Z; den : Z }.

(** The data members of [PatternMetrics]. *)
Record PatternMetrics := MkPatternMetrics {
  _unit_blocks : list Z;
  _num_blocks : Z;
  _block_size : Z;
  _min_blocks : Z;
  _max_blocks : Z;
  _num_imb_units : Z;
  _num_bal_units : Z;
  _imb_factor : float_quotient
}.

(** [_unit_blocks[unit]++]; an index outside the vector has no defined
    behaviour. *)
Definition increment (unit_blocks : list Z) (unit : Z) : option (list Z) :=
  if decide (0 ≤ unit) then
    n ← unit_blocks !! Z.to_nat unit;
    Some (<[Z.to_nat unit := n + 1]> unit_blocks)
  else None.

(** [for (int bi = ...; bi < _num_blocks; ++bi)
      _unit_blocks[pattern.unit_at({block.offset(0), block.offset(1)})]++]:
    [remaining] iterations from block [bi] on. *)
Fixpoint count_blocks (pattern : Pattern) (remaining : nat) (bi : Z)
    (unit_blocks : list Z) : option (list Z) :=
  match remaining with
  | O => Some unit_blocks
  | S remaining' =>
      let block_unit := unit_at pattern (block_offset pattern bi) in
      unit_blocks' ← increment unit_blocks block_unit;
      count_blocks pattern remaining' (bi + 1) unit_blocks'
  end.

(** [*std::min_element(first, last)] and [*std::max_element(first, last)];
    on an empty range the end iterator would be dereferenced. *)
Definition min_element (l : list Z) : option Z :=
  match l with
  | [] => None
  | x :: xs => Some (fold_left Z.min xs x)
  end.

Definition max_element (l : list Z) : option Z :=
  match l with
  | [] => None
  | x :: xs => Some (fold_left Z.max xs x)
  end.

(** [std::count(first, last, value)]. *)
Definition count (l : list Z) (value : Z) : Z :=
  Z.of_nat (length (filter (λ x, x = value) l)).

(** [init_metrics(pattern)], as run by the constructor. *)
Definition init_metrics (pattern : Pattern) : option PatternMetrics :=
  let num_blocks := to_int (blockspec_size pattern) in
  let nunits := teamspec_size pattern in
  let unit_blocks0 := replicate (Z.to_nat nunits) 0 in
  unit_blocks ← count_blocks pattern (Z.to_nat num_blocks) 0 unit_blocks0;
  let block_size := to_int (blocksize pattern 0 * blocksize pattern 1) in
  min_blocks ← min_element (take (Z.to_nat nunits) unit_blocks);
  max_blocks ← max_element (take (Z.to_nat nunits) unit_blocks);
  let num_bal_units :=
    to_int (count (take (Z.to_nat nunits) unit_blocks) min_blocks) in
  let num_imb_units :=
    if decide (min_blocks = max_blocks) then 0
    else to_int (count (take (Z.to_nat nunits) unit_blocks) max_blocks) in
  let min_elements := to_int (min_blocks * block_size) in
  let max_elements := to_int (max_blocks * block_size) in
  Some {| _unit_blocks := unit_blocks;
          _num_blocks := num_blocks;
          _block_size := block_size;
          _min_blocks := min_blocks;
          _max_blocks := max_blocks;
          _num_imb_units := num_imb_units;
          _num_bal_units := num_bal_units;
          _imb_factor := FloatQuotient max_elements min_elements |}.

(** The accessors. *)
Definition num_blocks (m : PatternMetrics) : Z := _num_blocks m.
Definition imbalance_factor (m : PatternMetrics) : float_quotient :=
  _imb_factor m.
Definition min_blocks_per_unit (m : PatternMetrics) : Z := _min_blocks m.
Definition min_elements_per_unit (m : PatternMetrics) : Z :=
  to_int (_min_blocks m * _block_size m).
Definition max_blocks_per_unit (m : PatternMetrics) : Z := _max_blocks m.
Definition max_elements_per_unit (m : PatternMetrics) : Z :=
  to_int (_max_blocks m * _block_size m).
Definition num_balanced_units (m : PatternMetrics) : Z := _num_bal_units m.
Definition num_imbalanced_units (m : PatternMetrics) : Z := _num_imb_units m.
Definition unit_local_blocks (m : PatternMetrics) (unit : Z) : option Z :=
  if decide (0 ≤ unit) then _unit_blocks m !! Z.to_nat unit else None.

(** *** What the metrics are meant to report *)

(** The coordinates of the pattern's index domain. *)
Definition coords (pattern : Pattern) : list (Z * Z) :=
  i ← seqZ 0 (extent pattern 0); j ← seqZ 0 (extent pattern 1); [(i, j)].

(** The number of pattern elements mapped to a unit. *)
Definition elements_of_unit (pattern : Pattern) (unit : Z) : Z :=
  Z.of_nat (length (filter (λ c, unit_at pattern c = unit) (coords pattern))).

(** The element counts of all units of the team. *)
Definition elements_per_unit (pattern : Pattern) : list Z :=
  elements_of_unit pattern <$> seqZ 0 (teamspec_size pattern).

(** The blocks whose first element belongs to a unit. *)
Definition blocks_owned_by (pattern : Pattern) (unit : Z) : list Z :=
  filter (λ bi, unit_at pattern (block_offset pattern bi) = unit)
         (seqZ 0 (blockspec_size pattern)).

Definition sum_list_Z (l : list Z) : Z := foldr Z.add 0 l.

(** Modelled from the spec: the pattern of an [E0 × E1] matrix distributed
    [(NONE, BLOCKED)] over [U] units arranged as a [1 × U] team (section 4.1):
    dimension 0 is not split; in dimension 1 the block coordinate of column
    [j] is [j / ceil(E1 / U)], which is also the owning unit; blocks are
    numbered along dimension 1. *)
Definition div_ceil (a b : Z) : Z := (a + b - 1) / b.

Definition blocked_columns (E0 E1 U : Z) : Pattern :=
  let bs1 := div_ceil E1 U in
  {| extent := λ d, match d with O => E0 | _ => E1 end;
     blockspec_size := div_ceil E1 bs1;
     teamspec_size := U;
     block_offset := λ bi, (0, bi * bs1);
     unit_at := λ c, c.2 / bs1;
     blocksize := λ d, match d with O => E0 | _ => bs1 end |}.

(** *** Facts about the block-counting loop *)

Lemma to_int_small (z : Z) : 0 ≤ z < 2 ^ 31 → to_int z = z.
Proof. intros Hz. unfold to_int. rewrite Z.mod_small; lia. Qed.

Lemma seqZ_S (m : Z) (n : nat) :
  seqZ m (Z.of_nat (S n)) = m :: seqZ (m + 1) (Z.of_nat n).
Proof.
  rewrite seqZ_cons by lia. f_equal.
  replace (Z.pred (Z.of_nat (S n))) with (Z.of_nat n) by lia.
  by replace (Z.succ m) with (m + 1) by lia.
Qed.

Lemma sum_list_Z_insert (l : list Z) (i : nat) (x y : Z) :
  l !! i = Some x → sum_list_Z (<[i := y]> l) = sum_list_Z l - x + y.
Proof.
  unfold sum_list_Z. revert i.
  induction l as [|z l IH]; intros [|i] Hi; try done; simpl in *.
  - injection Hi as ->. lia.
  - rewrite (IH i Hi). lia.
Qed.

Lemma increment_Some (unit_blocks : list Z) (unit : Z) :
  0 ≤ unit < Z.of_nat (length unit_blocks) →
  ∃ n, unit_blocks !! Z.to_nat unit = Some n ∧
       increment unit_blocks unit
       = Some (<[Z.to_nat unit := n + 1]> unit_blocks).
Proof.
  intros Hu. unfold increment. rewrite decide_True by lia.
  destruct (lookup_lt_is_Some_2 unit_blocks (Z.to_nat unit)) as [n Hn]; [lia|].
  exists n. by rewrite Hn.
Qed.

(** The number of blocks among [bi, bi + 1, ..., bi + n - 1] whose first
    element belongs to [unit]. *)
Definition owned_in (pattern : Pattern) (bi : Z) (n : nat) (unit : Z) : Z :=
  Z.of_nat (length (filter (λ k, unit_at pattern (block_offset pattern k) = unit)
                           (seqZ bi (Z.of_nat n)))).

Lemma owned_in_S pattern bi n unit :
  owned_in pattern bi (S n) unit
  = (if decide (unit_at pattern (block_offset pattern bi) = unit)
     then 1 else 0) + owned_in pattern (bi + 1) n unit.
Proof.
  unfold owned_in. rewrite seqZ_S, filter_cons.
  case_decide; cbn [length]; lia.
Qed.

Lemma count_blocks_spec pattern (n : nat) (bi : Z) (unit_blocks : list Z) :
  (∀ k, bi ≤ k < bi + Z.of_nat n →
        0 ≤ unit_at pattern (block_offset pattern k)
          < Z.of_nat (length unit_blocks)) →
  ∃ unit_blocks',
    count_blocks pattern n bi unit_blocks = Some unit_blocks' ∧
    length unit_blocks' = length unit_blocks ∧
    (∀ (i : nat) x, unit_blocks !! i = Some x →
       unit_blocks' !! i = Some (x + owned_in pattern bi n (Z.of_nat i))) ∧
    sum_list_Z unit_blocks' = sum_list_Z unit_blocks + Z.of_nat n.
Proof.
  revert bi unit_blocks.
  induction n as [|n IH]; intros bi unit_blocks Hunits.
  - exists unit_blocks. cbn. repeat split; [|lia].
    intros i x ->. f_equal. unfold owned_in.
    rewrite seqZ_nil by lia. cbn. lia.
  - set (u := unit_at pattern (block_offset pattern bi)).
    assert (Hu : 0 ≤ u < Z.of_nat (length unit_blocks)) by (apply Hunits; lia).
    destruct (increment_Some unit_blocks u Hu) as (c & Hc & Hinc).
    destruct (IH (bi + 1) (<[Z.to_nat u := c + 1]> unit_blocks))
      as (ub' & Hrun & Hlen & Hlook & Hsum).
    { intros k Hk. rewrite length_insert. apply Hunits. lia. }
    exists ub'. cbn [count_blocks]. fold u. rewrite Hinc. cbn.
    split; [done|]. rewrite length_insert in Hlen. split; [done|]. split.
    + intros i x Hi. rewrite owned_in_S. fold u.
      destruct (decide (i = Z.to_nat u)) as [->|Hne].
      * rewrite decide_True by lia.
        assert (x = c) as -> by congruence.
        rewrite (Hlook (Z.to_nat u) (c + 1)).
        -- f_equal. lia.
        -- apply list_lookup_insert_eq. lia.
      * rewrite decide_False by lia.
        rewrite (Hlook i x); [f_equal; lia|].
        by rewrite list_lookup_insert_ne.
    + rewrite Hsum, (sum_list_Z_insert _ _ c) by done. lia.
Qed.

Lemma owned_in_nonneg pattern bi n unit : 0 ≤ owned_in pattern bi n unit.
Proof. unfold owned_in. lia. Qed.

Lemma min_element_is_Some (l : list Z) : l ≠ [] → is_Some (min_element l).
Proof. destruct l; [done|]. intros _. by eexists. Qed.

Lemma max_element_is_Some (l : list Z) : l ≠ [] → is_Some (max_element l).
Proof. destruct l; [done|]. intros _. by eexists. Qed.

Lemma owned_in_le pattern bi n unit : owned_in pattern bi n unit ≤ Z.of_nat n.
Proof.
  unfold owned_in. pose proof (length_filter
    (λ k, unit_at pattern (block_offset pattern k) = unit)
    (seqZ bi (Z.of_nat n))) as Hle.
  rewrite length_seqZ in Hle. lia.
Qed.

(** The block counts of all units, as the loop leaves them. *)
Definition blocks_per_unit (pattern : Pattern) : list Z :=
  (λ u, Z.of_nat (length (blocks_owned_by pattern u)))
    <$> seqZ 0 (teamspec_size pattern).

(** A pattern [init_metrics] is defined on: its block count fits an [int],
    its team is not empty and [unit_at] names a unit of the team for the
    first element of every block. *)
Definition well_formed (pattern : Pattern) : Prop :=
  0 ≤ blockspec_size pattern < 2 ^ 31 ∧
  0 < teamspec_size pattern ∧
  ∀ bi, 0 ≤ bi < blockspec_size pattern →
        0 ≤ unit_at pattern (block_offset pattern bi) < teamspec_size pattern.

(** On a well-formed pattern [init_metrics] runs to its end, with the block
    counts of the units in [_unit_blocks]. *)
Lemma init_metrics_runs (pattern : Pattern) :
  well_formed pattern →
  ∃ mn mx,
    min_element (blocks_per_unit pattern) = Some mn ∧
    max_element (blocks_per_unit pattern) = Some mx ∧
    sum_list_Z (blocks_per_unit pattern) = blockspec_size pattern ∧
    init_metrics pattern =
      Some {| _unit_blocks := blocks_per_unit pattern;
              _num_blocks := blockspec_size pattern;
              _block_size :=
                to_int (blocksize pattern 0 * blocksize pattern 1);
              _min_blocks := mn;
              _max_blocks := mx;
              _num_imb_units :=
                if decide (mn = mx) then 0
                else to_int (count (blocks_per_unit pattern) mx);
              _num_bal_units := to_int (count (blocks_per_unit pattern) mn);
              _imb_factor :=
                FloatQuotient
                  (to_int (mx * to_int (blocksize pattern 0
                                        * blocksize pattern 1)))
                  (to_int (mn * to_int (blocksize pattern 0
                                        * blocksize pattern 1))) |}.
Proof.
  intros (Hblocks & Hunits & Hat).
  set (nb := blockspec_size pattern) in *.
  set (nu := teamspec_size pattern) in *.
  destruct (count_blocks_spec pattern (Z.to_nat nb) 0
              (replicate (Z.to_nat nu) 0))
    as (ub & Hrun & Hlen & Hlook & Hsum).
  { intros k Hk. rewrite length_replicate. rewrite Z2Nat.id by lia.
    apply Hat. lia. }
  rewrite length_replicate in Hlen.
  assert (Hub : ub = blocks_per_unit pattern).
  { apply list_eq. intros i. unfold blocks_per_unit. fold nu.
    rewrite list_lookup_fmap.
    destruct (decide (i < Z.to_nat nu)%nat) as [Hlt|Hge].
    - rewrite (Hlook i 0) by (by apply lookup_replicate_2).
      rewrite lookup_seqZ_lt by lia. cbn. f_equal.
      unfold owned_in, blocks_owned_by. fold nb.
      rewrite Z2Nat.id by lia.
      replace (0 + Z.of_nat i) with (Z.of_nat i) by lia. lia.
    - rewrite lookup_seqZ_ge by lia. cbn.
      apply lookup_ge_None. lia. }
  subst ub.
  assert (Htake : take (Z.to_nat nu) (blocks_per_unit pattern)
                  = blocks_per_unit pattern) by (apply take_ge; lia).
  assert (Hne : blocks_per_unit pattern ≠ []).
  { intros Hnil. rewrite Hnil in Hlen. cbn in Hlen. lia. }
  destruct (min_element_is_Some _ Hne) as [mn Hmn].
  destruct (max_element_is_Some _ Hne) as [mx Hmx].
  exists mn, mx. split; [done|]. split; [done|]. split.
  - unfold sum_list_Z in *. rewrite Hsum.
    assert (foldr Z.add 0 (replicate (Z.to_nat nu) 0) = 0) as ->; [|lia].
    clear. induction (Z.to_nat nu) as [|k IH]; simpl; [done|]. by rewrite IH.
  - unfold init_metrics. fold nb nu.
    rewrite (to_int_small nb) by done. rewrite Hrun. cbn [mbind option_bind].
    rewrite Htake, Hmn, Hmx. reflexivity.
Qed.

Lemma lookup_blocks_per_unit pattern (u : Z) :
  0 ≤ u < teamspec_size pattern →
  blocks_per_unit pattern !! Z.to_nat u
  = Some (Z.of_nat (length (blocks_owned_by pattern u))).
Proof.
  intros Hu. unfold blocks_per_unit.
  rewrite list_lookup_fmap, lookup_seqZ_lt by lia. cbn.
  by rewrite Z2Nat.id by lia.
Qed.

(** *** The claims about the metrics *)

(** C9.  For a pattern whose block count fits an [int] and whose [unit_at]
    names a unit of the (non-empty) team for every block, the constructor
    succeeds, [num_blocks()] is the pattern's block count, and
    [unit_local_blocks(u)] is, for every unit [u], the number of blocks whose
    first element [u] owns: it is not negative, and the counts of all units
    add up to [num_blocks()]. *)
Theorem unit_local_blocks_sum_to_num_blocks (pattern : Pattern) :
  0 ≤ blockspec_size pattern < 2 ^ 31 →
  0 < teamspec_size pattern →
  (∀ bi, 0 ≤ bi < blockspec_size pattern →
         0 ≤ unit_at pattern (block_offset pattern bi)
           < teamspec_size pattern) →
  ∃ m,
    init_metrics pattern = Some m ∧
    num_blocks m = blockspec_size pattern ∧
    length (_unit_blocks m) = Z.to_nat (teamspec_size pattern) ∧
    (∀ u, 0 ≤ u < teamspec_size pattern →
          unit_local_blocks m u
          = Some (Z.of_nat (length (blocks_owned_by pattern u)))) ∧
    (∀ u n, unit_local_blocks m u = Some n → 0 ≤ n) ∧
    sum_list_Z (_unit_blocks m) = num_blocks m.
Proof.
  intros Hblocks Hunits Hat.
  destruct (init_metrics_runs pattern) as (mn & mx & _ & _ & Hsum & Hinit);
    [done|].
  eexists. split; [exact Hinit|].
  unfold num_blocks, unit_local_blocks. cbn.
  repeat apply conj.
  - done.
  - unfold blocks_per_unit. by rewrite length_fmap, length_seqZ.
  - intros u Hu. rewrite decide_True by lia.
    by apply lookup_blocks_per_unit.
  - intros u n Hn. case_decide; [|discriminate].
    unfold blocks_per_unit in Hn. rewrite list_lookup_fmap in Hn.
    destruct (seqZ 0 (teamspec_size pattern) !! Z.to_nat u); [|discriminate].
    injection Hn as <-. lia.
  - exact Hsum.
Qed.

(** The pattern of scenario S1: an 8 × 6 matrix in column blocks over two
    units. *)
Lemma unit_local_blocks_sum_to_num_blocks_witness :
  ∃ m,
    init_metrics (blocked_columns 8 6 2) = Some m ∧
    num_blocks m = 2 ∧
    length (_unit_blocks m) = 2%nat ∧
    (∀ u, 0 ≤ u < 2 →
          unit_local_blocks m u
          = Some (Z.of_nat (length (blocks_owned_by (blocked_columns 8 6 2) u)))) ∧
    (∀ u n, unit_local_blocks m u = Some n → 0 ≤ n) ∧
    sum_list_Z (_unit_blocks m) = num_blocks m.
Proof.
  apply (unit_local_blocks_sum_to_num_blocks (blocked_columns 8 6 2)).
  - split; by vm_compute.
  - by vm_compute.
  - intros bi Hbi.
    change (blockspec_size (blocked_columns 8 6 2)) with 2 in Hbi.
    assert (bi = 0 ∨ bi = 1) as [-> | ->] by lia; split; by vm_compute.
Defined.

(** A 1 × 2^31 matrix in blocks of one element, all of them on the single
    unit of the team. *)
Definition one_element_blocks : Pattern :=
  {| extent := λ d, match d with O => 1 | _ => 2 ^ 31 end;
     blockspec_size := 2 ^ 31;
     teamspec_size := 1;
     block_offset := λ bi, (0, bi);
     unit_at := λ _, 0;
     blocksize := λ _, 1 |}.

(** C9 does not hold for every pattern: the block count is stored in an
    [int].  With 2^31 blocks, [num_blocks()] is [-2^31], the counting loop
    does not run, and the only unit, which owns every block, is reported to
    hold none: the counts add up to 0, which is neither [num_blocks()] nor
    the pattern's block count. *)
Lemma unit_local_blocks_int_overflow_counterexample :
  ∃ m,
    init_metrics one_element_blocks = Some m ∧
    blockspec_size one_element_blocks = 2 ^ 31 ∧
    teamspec_size one_element_blocks = 1 ∧
    unit_at one_element_blocks (block_offset one_element_blocks 5) = 0 ∧
    num_blocks m = - 2 ^ 31 ∧
    unit_local_blocks m 0 = Some 0 ∧
    sum_list_Z (_unit_blocks m) = 0 ∧
    sum_list_Z (_unit_blocks m) ≠ num_blocks m ∧
    sum_list_Z (_unit_blocks m) ≠ blockspec_size one_element_blocks.
Proof.
  eexists. split; [by vm_compute|]. repeat split; by vm_compute.
Qed.

(** *** Patterns whose blocks all have the nominal size *)

(** Every unit holds as many elements as it owns blocks, times
    [blocksize(0) * blocksize(1)]. *)
Definition full_blocks (pattern : Pattern) : Prop :=
  ∀ u, 0 ≤ u < teamspec_size pattern →
       elements_of_unit pattern u
       = Z.of_nat (length (blocks_owned_by pattern u))
         * (blocksize pattern 0 * blocksize pattern 1).

Lemma fold_left_min_spec (xs : list Z) (x : Z) :
  fold_left Z.min xs x ∈ x :: xs ∧
  ∀ y, y ∈ x :: xs → fold_left Z.min xs x ≤ y.
Proof.
  revert x. induction xs as [|z xs IH]; intros x; cbn [fold_left].
  - split; [apply list_elem_of_here|]. intros y ->%list_elem_of_singleton. lia.
  - destruct (IH (Z.min x z)) as [Hin Hle]. split.
    + apply elem_of_cons in Hin as [Heq|Hin].
      * rewrite Heq. destruct (Z.min_spec x z) as [[_ ->]|[_ ->]].
        -- apply list_elem_of_here.
        -- apply list_elem_of_further, list_elem_of_here.
      * by do 2 apply list_elem_of_further.
    + intros y [->|[->|Hy]%elem_of_cons]%elem_of_cons.
      * specialize (Hle (Z.min x z) (list_elem_of_here _ _)). lia.
      * specialize (Hle (Z.min x z) (list_elem_of_here _ _)). lia.
      * apply Hle. by apply list_elem_of_further.
Qed.

Lemma fold_left_max_spec (xs : list Z) (x : Z) :
  fold_left Z.max xs x ∈ x :: xs ∧
  ∀ y, y ∈ x :: xs → y ≤ fold_left Z.max xs x.
Proof.
  revert x. induction xs as [|z xs IH]; intros x; cbn [fold_left].
  - split; [apply list_elem_of_here|]. intros y ->%list_elem_of_singleton. lia.
  - destruct (IH (Z.max x z)) as [Hin Hle]. split.
    + apply elem_of_cons in Hin as [Heq|Hin].
      * rewrite Heq. destruct (Z.max_spec x z) as [[_ ->]|[_ ->]].
        -- apply list_elem_of_further, list_elem_of_here.
        -- apply list_elem_of_here.
      * by do 2 apply list_elem_of_further.
    + intros y [->|[->|Hy]%elem_of_cons]%elem_of_cons.
      * specialize (Hle (Z.max x z) (list_elem_of_here _ _)). lia.
      * specialize (Hle (Z.max x z) (list_elem_of_here _ _)). lia.
      * apply Hle. by apply list_elem_of_further.
Qed.

Lemma min_element_spec (l : list Z) (mn : Z) :
  min_element l = Some mn → mn ∈ l ∧ ∀ y, y ∈ l → mn ≤ y.
Proof.
  destruct l as [|x xs]; [done|]. intros [= <-]. apply fold_left_min_spec.
Qed.

Lemma max_element_spec (l : list Z) (mx : Z) :
  max_element l = Some mx → mx ∈ l ∧ ∀ y, y ∈ l → y ≤ mx.
Proof.
  destruct l as [|x xs]; [done|]. intros [= <-]. apply fold_left_max_spec.
Qed.

Lemma min_element_scale (l : list Z) (k : Z) :
  0 ≤ k →
  min_element ((λ c, c * k) <$> l) = (λ c, c * k) <$> min_element l.
Proof.
  intros Hk. destruct l as [|x xs]; [done|]. cbn. f_equal.
  revert x. induction xs as [|z xs IH]; intros x; [done|].
  cbn. rewrite <- IH. f_equal. by apply Z.mul_min_distr_nonneg_r.
Qed.

Lemma max_element_scale (l : list Z) (k : Z) :
  0 ≤ k →
  max_element ((λ c, c * k) <$> l) = (λ c, c * k) <$> max_element l.
Proof.
  intros Hk. destruct l as [|x xs]; [done|]. cbn. f_equal.
  revert x. induction xs as [|z xs IH]; intros x; [done|].
  cbn. rewrite <- IH. f_equal. by apply Z.mul_max_distr_nonneg_r.
Qed.

Lemma blocks_per_unit_bounds pattern (c : Z) :
  0 ≤ blockspec_size pattern →
  c ∈ blocks_per_unit pattern → 0 ≤ c ≤ blockspec_size pattern.
Proof.
  intros Hnb (u & -> & _)%list_elem_of_fmap. unfold blocks_owned_by.
  pose proof (length_filter
    (λ bi, unit_at pattern (block_offset pattern bi) = u)
    (seqZ 0 (blockspec_size pattern))) as Hle.
  rewrite length_seqZ in Hle. lia.
Qed.

Lemma elements_per_unit_full_blocks pattern :
  full_blocks pattern →
  elements_per_unit pattern
  = (λ c, c * (blocksize pattern 0 * blocksize pattern 1))
      <$> blocks_per_unit pattern.
Proof.
  intros Hfull. unfold elements_per_unit, blocks_per_unit.
  rewrite <- list_fmap_compose. apply list_fmap_ext.
  intros i u [-> Hi]%lookup_seqZ. cbn. apply Hfull. lia.
Qed.

(** On a pattern whose blocks all have the nominal size (and whose element
    count fits an [int]) the metrics are the true ones: the minimum and the
    maximum number of elements mapped to a unit, with the quotient of the
    two as imbalance factor. *)
Theorem elements_per_unit_of_full_blocks (pattern : Pattern) :
  well_formed pattern →
  full_blocks pattern →
  0 ≤ blocksize pattern 0 * blocksize pattern 1 < 2 ^ 31 →
  blockspec_size pattern * (blocksize pattern 0 * blocksize pattern 1)
    < 2 ^ 31 →
  ∃ m,
    init_metrics pattern = Some m ∧
    min_element (elements_per_unit pattern) = Some (min_elements_per_unit m) ∧
    max_element (elements_per_unit pattern) = Some (max_elements_per_unit m) ∧
    imbalance_factor m
    = FloatQuotient (max_elements_per_unit m) (min_elements_per_unit m).
Proof.
  intros Hwf Hfull Hbs Htotal.
  destruct (init_metrics_runs pattern Hwf)
    as (mn & mx & Hmn & Hmx & _ & Hinit).
  destruct Hwf as (Hnb & _ & _).
  set (bs := blocksize pattern 0 * blocksize pattern 1) in *.
  destruct (min_element_spec _ _ Hmn) as [Hmn_in _].
  destruct (max_element_spec _ _ Hmx) as [Hmx_in _].
  apply blocks_per_unit_bounds in Hmn_in; [|lia].
  apply blocks_per_unit_bounds in Hmx_in; [|lia].
  eexists. split; [exact Hinit|].
  unfold min_elements_per_unit, max_elements_per_unit, imbalance_factor.
  cbn. fold bs. rewrite (to_int_small bs) by done.
  rewrite (to_int_small (mn * bs)) by nia.
  rewrite (to_int_small (mx * bs)) by nia.
  rewrite (elements_per_unit_full_blocks pattern Hfull). fold bs.
  rewrite min_element_scale, max_element_scale by lia.
  by rewrite Hmn, Hmx.
Qed.

(** Scenario S1: the 8 × 6 matrix in column blocks over two units has two
    full blocks of 24 elements. *)
Lemma elements_per_unit_of_full_blocks_witness :
  ∃ m,
    init_metrics (blocked_columns 8 6 2) = Some m ∧
    min_element (elements_per_unit (blocked_columns 8 6 2))
    = Some (min_elements_per_unit m) ∧
    max_element (elements_per_unit (blocked_columns 8 6 2))
    = Some (max_elements_per_unit m) ∧
    imbalance_factor m
    = FloatQuotient (max_elements_per_unit m) (min_elements_per_unit m).
Proof.
  apply (elements_per_unit_of_full_blocks (blocked_columns 8 6 2)).
  - split; [split; by vm_compute|]. split; [by vm_compute|].
    intros bi Hbi.
    change (blockspec_size (blocked_columns 8 6 2)) with 2 in Hbi.
    assert (bi = 0 ∨ bi = 1) as [-> | ->] by lia; split; by vm_compute.
  - intros u Hu.
    change (teamspec_size (blocked_columns 8 6 2)) with 2 in Hu.
    assert (u = 0 ∨ u = 1) as [-> | ->] by lia; by vm_compute.
  - split; by vm_compute.
  - by vm_compute.
Defined.

(** C8 at a pattern with an underfilled last block: a 1 × 5 matrix in column
    blocks over two units.  Unit 0 holds 3 elements and unit 1 holds 2, each
    in one block of nominal size 3; the metrics report a minimum of 3
    elements per unit and the quotient 3 / 3. *)
Theorem elements_per_unit_underfilled_block :
  ∃ m,
    init_metrics (blocked_columns 1 5 2) = Some m ∧
    _unit_blocks m = [1; 1] ∧
    min_elements_per_unit m = 3 ∧
    max_elements_per_unit m = 3 ∧
    imbalance_factor m = FloatQuotient 3 3 ∧
    elements_per_unit (blocked_columns 1 5 2) = [3; 2] ∧
    min_element (elements_per_unit (blocked_columns 1 5 2)) = Some 2 ∧
    max_element (elements_per_unit (blocked_columns 1 5 2)) = Some 3.
Proof. eexists. split; [reflexivity|]. repeat split. Qed.

(** *** Minimum, maximum and the unit counts *)

Lemma count_le_length (l : list Z) (v : Z) :
  0 ≤ count l v ≤ Z.of_nat (length l).
Proof.
  unfold count. pose proof (length_filter (λ x, x = v) l). lia.
Qed.

Lemma count_pos (l : list Z) (v : Z) : v ∈ l → 1 ≤ count l v.
Proof.
  intros Hv. unfold count.
  assert (v ∈ filter (λ x, x = v) l) as Hin by (by apply list_elem_of_filter).
  destruct (filter (λ x, x = v) l); [by apply elem_of_nil in Hin|].
  cbn [length]. lia.
Qed.

Lemma count_disjoint (l : list Z) (v w : Z) :
  v ≠ w → count l v + count l w ≤ Z.of_nat (length l).
Proof.
  intros Hvw. unfold count. induction l as [|x l IH]; [done|].
  rewrite !filter_cons. cbn [length].
  destruct (decide (x = v)), (decide (x = w)); cbn [length]; lia.
Qed.

Lemma count_all (l : list Z) (v : Z) :
  (∀ y, y ∈ l → y = v) → count l v = Z.of_nat (length l).
Proof.
  intros Hall. unfold count. induction l as [|x l IH]; [done|].
  rewrite filter_cons, decide_True by (apply Hall, list_elem_of_here).
  cbn [length]. rewrite !Nat2Z.inj_succ. f_equal. apply IH.
  intros y Hy. by apply Hall, list_elem_of_further.
Qed.

Lemma sum_list_Z_bounds (l : list Z) (a b : Z) :
  (∀ y, y ∈ l → a ≤ y ≤ b) →
  a * Z.of_nat (length l) ≤ sum_list_Z l ≤ b * Z.of_nat (length l).
Proof.
  unfold sum_list_Z. induction l as [|x l IH]; intros Hall; simpl; [lia|].
  pose proof (Hall x (list_elem_of_here _ _)).
  assert (∀ y, y ∈ l → a ≤ y ≤ b) as Hl
    by (intros y Hy; by apply Hall, list_elem_of_further).
  specialize (IH Hl). lia.
Qed.

Lemma length_blocks_per_unit pattern :
  length (blocks_per_unit pattern) = Z.to_nat (teamspec_size pattern).
Proof. unfold blocks_per_unit. by rewrite length_fmap, length_seqZ. Qed.

Lemma unit_lookup_elem (l : list Z) (n : Z) :
  n ∈ l ↔ ∃ u, (if decide (0 ≤ u) then l !! Z.to_nat u else None) = Some n.
Proof.
  split.
  - intros (i & Hi)%list_elem_of_lookup_1. exists (Z.of_nat i).
    rewrite decide_True by lia. by rewrite Nat2Z.id.
  - intros (u & Hu). case_decide; [|done]. by eapply list_elem_of_lookup_2.
Qed.

(** On a well-formed pattern the minimum and the maximum are attained and
    bound every unit's block count:
    [0 ≤ min_blocks_per_unit() ≤ unit_local_blocks(u) ≤
    max_blocks_per_unit()] for every unit [u], some unit has the minimum and
    some unit the maximum, and [num_blocks()] lies between the two, times the
    number of units. *)
Theorem block_counts_between_min_and_max (pattern : Pattern) :
  well_formed pattern →
  ∃ m,
    init_metrics pattern = Some m ∧
    0 ≤ min_blocks_per_unit m ≤ max_blocks_per_unit m ∧
    (∀ u n, unit_local_blocks m u = Some n →
            min_blocks_per_unit m ≤ n ≤ max_blocks_per_unit m) ∧
    (∃ u, unit_local_blocks m u = Some (min_blocks_per_unit m)) ∧
    (∃ u, unit_local_blocks m u = Some (max_blocks_per_unit m)) ∧
    min_blocks_per_unit m * teamspec_size pattern
      ≤ num_blocks m
      ≤ max_blocks_per_unit m * teamspec_size pattern.
Proof.
  intros Hwf.
  destruct (init_metrics_runs pattern Hwf)
    as (mn & mx & Hmn & Hmx & Hsum & Hinit).
  destruct Hwf as (Hnb & Hnu & _).
  destruct (min_element_spec _ _ Hmn) as [Hmn_in Hmn_le].
  destruct (max_element_spec _ _ Hmx) as [Hmx_in Hmx_le].
  pose proof (blocks_per_unit_bounds pattern mn (proj1 Hnb) Hmn_in) as Hmn0.
  eexists. split; [exact Hinit|].
  unfold min_blocks_per_unit, max_blocks_per_unit, num_blocks,
    unit_local_blocks.
  cbn [_min_blocks _max_blocks _num_blocks _unit_blocks].
  split; [split; [lia|by apply Hmx_le]|]. split.
  { intros u n Hn.
    assert (n ∈ blocks_per_unit pattern) as Hin
      by (apply unit_lookup_elem; by exists u).
    split; [by apply Hmn_le|by apply Hmx_le]. }
  split; [by apply unit_lookup_elem|].
  split; [by apply unit_lookup_elem|].
  pose proof (sum_list_Z_bounds (blocks_per_unit pattern) mn mx) as Hb.
  rewrite length_blocks_per_unit, Z2Nat.id, Hsum in Hb by lia.
  apply Hb. intros y Hy. split; [by apply Hmn_le|by apply Hmx_le].
Qed.

(** [num_balanced_units()] counts the units with the minimum number of
    blocks and [num_imbalanced_units()] those with the maximum, unless the
    two agree.  On a well-formed pattern with fewer than [2 ^ 31] units: at
    least one unit is counted as balanced; no unit is counted as imbalanced
    exactly when minimum and maximum agree, and then every unit is counted
    as balanced; otherwise at least one unit is counted as imbalanced and
    the two counts together do not exceed the number of units. *)
Theorem balanced_and_imbalanced_units (pattern : Pattern) :
  well_formed pattern →
  teamspec_size pattern < 2 ^ 31 →
  ∃ m,
    init_metrics pattern = Some m ∧
    1 ≤ num_balanced_units m ≤ teamspec_size pattern ∧
    (num_imbalanced_units m = 0 ↔
     min_blocks_per_unit m = max_blocks_per_unit m) ∧
    (min_blocks_per_unit m = max_blocks_per_unit m →
     num_balanced_units m = teamspec_size pattern) ∧
    (min_blocks_per_unit m ≠ max_blocks_per_unit m →
     1 ≤ num_imbalanced_units m ∧
     num_balanced_units m + num_imbalanced_units m ≤ teamspec_size pattern).
Proof.
  intros Hwf Hsmall.
  destruct (init_metrics_runs pattern Hwf)
    as (mn & mx & Hmn & Hmx & _ & Hinit).
  destruct Hwf as (_ & Hnu & _).
  destruct (min_element_spec _ _ Hmn) as [Hmn_in Hmn_le].
  destruct (max_element_spec _ _ Hmx) as [Hmx_in Hmx_le].
  set (l := blocks_per_unit pattern) in *.
  assert (Hlen : Z.of_nat (length l) = teamspec_size pattern).
  { unfold l. rewrite length_blocks_per_unit. lia. }
  pose proof (count_le_length l mn) as Hcmn.
  pose proof (count_le_length l mx) as Hcmx.
  pose proof (count_pos l mn Hmn_in) as Hpmn.
  pose proof (count_pos l mx Hmx_in) as Hpmx.
  eexists. split; [exact Hinit|].
  unfold num_balanced_units, num_imbalanced_units, min_blocks_per_unit,
    max_blocks_per_unit.
  cbn [_num_bal_units _num_imb_units _min_blocks _max_blocks].
  rewrite (to_int_small (count l mn)) by lia.
  split; [lia|]. split; [|split].
  - case_decide; [done|]. rewrite (to_int_small (count l mx)) by lia.
    split; [lia|done].
  - intros Heq. rewrite <- Hlen. apply count_all.
    intros y Hy. pose proof (Hmn_le y Hy). pose proof (Hmx_le y Hy). lia.
  - intros Hne. rewrite decide_False by done.
    rewrite (to_int_small (count l mx)) by lia.
    pose proof (count_disjoint l mn mx Hne). lia.
Qed.

(** When some unit of the team owns no block, the minimum is zero blocks and
    zero elements, and [imbalance_factor()] is a quotient by zero. *)
Theorem unit_without_blocks_divides_by_zero (pattern : Pattern) (u : Z) :
  well_formed pattern →
  0 ≤ u < teamspec_size pattern →
  blocks_owned_by pattern u = [] →
  ∃ m,
    init_metrics pattern = Some m ∧
    unit_local_blocks m u = Some 0 ∧
    min_blocks_per_unit m = 0 ∧
    min_elements_per_unit m = 0 ∧
    den (imbalance_factor m) = 0.
Proof.
  intros Hwf Hu Hnone.
  destruct (init_metrics_runs pattern Hwf)
    as (mn & mx & Hmn & Hmx & _ & Hinit).
  destruct Hwf as (Hnb & _ & _).
  destruct (min_element_spec _ _ Hmn) as [Hmn_in Hmn_le].
  pose proof (blocks_per_unit_bounds pattern mn (proj1 Hnb) Hmn_in) as Hmn0.
  pose proof (lookup_blocks_per_unit pattern u Hu) as Hlook.
  rewrite Hnone in Hlook. cbn in Hlook.
  assert (mn = 0) as ->.
  { specialize (Hmn_le 0 (list_elem_of_lookup_2 _ _ _ Hlook)). lia. }
  eexists. split; [exact Hinit|].
  unfold unit_local_blocks, min_blocks_per_unit, min_elements_per_unit,
    imbalance_factor.
  cbn [_unit_blocks _min_blocks _block_size _imb_factor den].
  rewrite decide_True by lia. rewrite Z.mul_0_l.
  by change (to_int 0) with 0.
Qed.

(** Three columns in column blocks over four units: the last unit owns no
    block. *)
Lemma blocked_columns_1_3_4_well_formed :
  well_formed (blocked_columns 1 3 4).
Proof.
  split; [split; by vm_compute|]. split; [by vm_compute|].
  intros bi Hbi. change (blockspec_size (blocked_columns 1 3 4)) with 3 in Hbi.
  assert (bi = 0 ∨ bi = 1 ∨ bi = 2) as [-> | [-> | ->]] by lia;
    split; by vm_compute.
Qed.

Lemma block_counts_between_min_and_max_witness :
  ∃ m,
    init_metrics (blocked_columns 1 3 4) = Some m ∧
    0 ≤ min_blocks_per_unit m ≤ max_blocks_per_unit m ∧
    (∀ u n, unit_local_blocks m u = Some n →
            min_blocks_per_unit m ≤ n ≤ max_blocks_per_unit m) ∧
    (∃ u, unit_local_blocks m u = Some (min_blocks_per_unit m)) ∧
    (∃ u, unit_local_blocks m u = Some (max_blocks_per_unit m)) ∧
    min_blocks_per_unit m * 4 ≤ num_blocks m ≤ max_blocks_per_unit m * 4.
Proof.
  apply (block_counts_between_min_and_max (blocked_columns 1 3 4)).
  exact blocked_columns_1_3_4_well_formed.
Defined.

Lemma balanced_and_imbalanced_units_witness :
  ∃ m,
    init_metrics (blocked_columns 1 3 4) = Some m ∧
    1 ≤ num_balanced_units m ≤ 4 ∧
    (num_imbalanced_units m = 0 ↔
     min_blocks_per_unit m = max_blocks_per_unit m) ∧
    (min_blocks_per_unit m = max_blocks_per_unit m →
     num_balanced_units m = 4) ∧
    (min_blocks_per_unit m ≠ max_blocks_per_unit m →
     1 ≤ num_imbalanced_units m ∧
     num_balanced_units m + num_imbalanced_units m ≤ 4).
Proof.
  apply (balanced_and_imbalanced_units (blocked_columns 1 3 4)).
  - exact blocked_columns_1_3_4_well_formed.
  - by vm_compute.
Defined.

Lemma unit_without_blocks_divides_by_zero_witness :
  ∃ m,
    init_metrics (blocked_columns 1 3 4) = Some m ∧
    unit_local_blocks m 3 = Some 0 ∧
    min_blocks_per_unit m = 0 ∧
    min_elements_per_unit m = 0 ∧
    den (imbalance_factor m) = 0.
Proof.
  apply (unit_without_blocks_divides_by_zero (blocked_columns 1 3 4) 3).
  - exact blocked_columns_1_3_4_well_formed.
  - split; by vm_compute.
  - by vm_compute.
Defined.

End PatternMetrics.

(** ** dash/SharedCounter.h *)

Module SharedCounter.

Section WithValueType.

(** [ValueType] with its [0], [+=] and [-=]. *)
Context {ValueType : Type}.
Variable zero : ValueType.
Variable add sub : ValueType → ValueType → ValueType.

(** A unit's instance of [SharedCounter<ValueType>].  The member
    [_local_counts] is a [dash::Array<ValueType>] of [_num_units] elements,
    element [u] on unit [u]; the instances of all units refer to the same
    array, which is passed along as a list. *)
Record SharedCounter := MkSharedCounter {
  _num_units : nat;
  _myid : nat
}.

(** The constructor as unit [myid] of a team of [num_units] units runs it:
    [_local_counts[_myid] = 0], on the array as the collective allocation
    and the other units left it. *)
Definition ctor (num_units myid : nat) (local_counts : list ValueType)
  : SharedCounter * list ValueType :=
  ({| _num_units := num_units; _myid := myid |},
   <[myid := zero]> local_counts).

(** [inc(increment)]: [_local_counts[_myid] += increment]; an index outside
    the array has no defined behaviour. *)
Definition inc (c : SharedCounter) (increment : ValueType)
    (local_counts : list ValueType) : option (list ValueType) :=
  v ← local_counts !! _myid c;
  Some (<[_myid c := add v increment]> local_counts).

(** [dec(increment)]: [_local_counts[_myid] -= increment]. *)
Definition dec (c : SharedCounter) (increment : ValueType)
    (local_counts : list ValueType) : option (list ValueType) :=
  v ← local_counts !! _myid c;
  Some (<[_myid c := sub v increment]> local_counts).

(** [get()]: [acc = 0; for (i = 0; i < _num_units; ++i)
    acc += _local_counts[i]; return acc]. *)
Definition get (c : SharedCounter) (local_counts : list ValueType)
  : option ValueType :=
  if decide (_num_units c ≤ length local_counts)%nat then
    Some (fold_left add (take (_num_units c) local_counts) zero)
  else None.

(** Every unit of the team runs the constructor, in the order [order]. *)
Definition construct_all (num_units : nat) (order : list nat)
    (allocated : list ValueType) : list ValueType :=
  fold_left (λ local_counts myid, (ctor num_units myid local_counts).2)
            order allocated.

(** Units increment the counter, one after the other: each entry is the
    unit and its increment. *)
Fixpoint inc_all (num_units : nat) (incs : list (nat * ValueType))
    (local_counts : list ValueType) : option (list ValueType) :=
  match incs with
  | [] => Some local_counts
  | (myid, increment) :: incs' =>
      local_counts' ← inc (MkSharedCounter num_units myid) increment
                          local_counts;
      inc_all num_units incs' local_counts'
  end.

Lemma length_construct_all n order allocated :
  length (construct_all n order allocated) = length allocated.
Proof.
  unfold construct_all. revert allocated.
  induction order as [|u order IH]; intros allocated; [done|].
  cbn. by rewrite IH, length_insert.
Qed.

Lemma lookup_construct_all n order allocated (i : nat) :
  construct_all n order allocated !! i
  = if decide (i ∈ order ∧ i < length allocated)%nat then Some zero
    else allocated !! i.
Proof.
  unfold construct_all. revert allocated.
  induction order as [|u order IH]; intros allocated; cbn.
  - rewrite decide_False; [done|]. intros [[]%elem_of_nil _].
  - rewrite IH, length_insert.
    destruct (decide (i ∈ order ∧ (i < length allocated)%nat)) as [[? ?]|Hno].
    + rewrite decide_True; [done|]. split; [by right|done].
    + destruct (decide (i = u)) as [->|Hiu].
      * destruct (decide (u < length allocated)%nat) as [Hlt|Hge].
        -- rewrite list_lookup_insert_eq by done.
           rewrite decide_True; [done|]. split; [by left|done].
        -- rewrite list_insert_ge by lia.
           rewrite decide_False; [done|]. intros [_ ?]. lia.
      * rewrite list_lookup_insert_ne by done.
        rewrite decide_False; [done|].
        intros [[?|?]%elem_of_cons ?]; [done|]. by apply Hno.
Qed.

Lemma fold_left_add_replicate_zero `{!LeftId (=) zero add} (n : nat) :
  fold_left add (replicate n zero) zero = zero.
Proof.
  induction n as [|n IH]; [done|]. cbn. by rewrite (left_id_L zero add).
Qed.

(** Once every unit of the team has run the constructor, in whatever order,
    the array holds [0] for every unit, whatever the allocation left in it,
    and [get()] returns [0]. *)
Theorem constructed_counter_is_zero `{!LeftId (=) zero add}
    (n : nat) (order : list nat) (allocated : list ValueType)
    (c : SharedCounter) :
  length allocated = n →
  (∀ u, (u < n)%nat → u ∈ order) →
  _num_units c = n →
  construct_all n order allocated = replicate n zero ∧
  get c (construct_all n order allocated) = Some zero.
Proof.
  intros Hlen Hall Hc.
  assert (construct_all n order allocated = replicate n zero) as ->.
  { apply list_eq. intros i. rewrite lookup_construct_all, Hlen.
    destruct (decide (i < n)%nat) as [Hlt|Hge].
    - rewrite decide_True by (split; [by apply Hall|done]).
      symmetry. by apply lookup_replicate_2.
    - rewrite decide_False by (intros [_ ?]; lia).
      rewrite lookup_ge_None_2 by lia.
      symmetry. apply lookup_replicate_None. lia. }
  split; [done|]. unfold get. rewrite Hc, length_replicate.
  rewrite decide_True by done. f_equal.
  rewrite take_ge by (rewrite length_replicate; lia).
  apply fold_left_add_replicate_zero.
Qed.

Lemma fold_left_add_shift `{!Assoc (=) add, !Comm (=) add}
    (l : list ValueType) (x k : ValueType) :
  fold_left add l (add x k) = add (fold_left add l x) k.
Proof.
  revert x. induction l as [|y l IH]; intros x; [done|].
  cbn. rewrite <- IH. f_equal.
  rewrite <- !(assoc_L add). f_equal. apply (comm_L add).
Qed.

Lemma fold_left_add_insert `{!Assoc (=) add, !Comm (=) add}
    (l : list ValueType) (i : nat) (v k a : ValueType) :
  l !! i = Some v →
  fold_left add (<[i := add v k]> l) a = add (fold_left add l a) k.
Proof.
  revert i a. induction l as [|y l IH]; intros [|i] a Hi; try done.
  - cbn in *. injection Hi as ->.
    by rewrite (assoc_L add), fold_left_add_shift.
  - cbn in *. by apply IH.
Qed.

(** [inc(k)] by a unit of the team succeeds, changes only that unit's
    element, and raises what [get()] returns, on any unit, by [k]; [+=]
    is taken associative and commutative. *)
Theorem get_after_inc `{!Assoc (=) add, !Comm (=) add}
    (c reader : SharedCounter) (k : ValueType)
    (local_counts : list ValueType) :
  length local_counts = _num_units c →
  (_myid c < _num_units c)%nat →
  _num_units reader = _num_units c →
  ∃ local_counts' total,
    inc c k local_counts = Some local_counts' ∧
    length local_counts' = length local_counts ∧
    (∀ u, u ≠ _myid c → local_counts' !! u = local_counts !! u) ∧
    get reader local_counts = Some total ∧
    get reader local_counts' = Some (add total k).
Proof.
  intros Hlen Hid Hreader.
  destruct (lookup_lt_is_Some_2 local_counts (_myid c)) as [v Hv]; [lia|].
  eexists _, _. unfold inc. rewrite Hv. cbn.
  split; [done|]. split; [apply length_insert|]. split.
  { intros u Hu. by apply list_lookup_insert_ne. }
  unfold get. rewrite length_insert, Hreader, !decide_True by lia.
  split; [done|]. f_equal.
  rewrite !take_ge by (rewrite ?length_insert; lia).
  by apply fold_left_add_insert.
Qed.

(** [dec(k)] after [inc(k)] by the same unit leaves the array as it was,
    when [-=] undoes [+=]. *)
Theorem dec_undoes_inc (c : SharedCounter) (k : ValueType)
    (local_counts : list ValueType) :
  (∀ v, sub (add v k) k = v) →
  (_myid c < length local_counts)%nat →
  inc c k local_counts ≫= dec c k = Some local_counts.
Proof.
  intros Hundo Hid.
  destruct (lookup_lt_is_Some_2 local_counts (_myid c)) as [v Hv]; [lia|].
  unfold inc, dec. rewrite Hv. cbn.
  rewrite list_lookup_insert_eq by done. cbn.
  rewrite list_insert_insert_eq, Hundo. f_equal.
  by apply list_insert_id.
Qed.

(** Increments by different units do not interfere: either order leaves
    the same array. *)
Theorem inc_of_different_units_commute (c1 c2 : SharedCounter)
    (k1 k2 : ValueType) (local_counts : list ValueType) :
  _myid c1 ≠ _myid c2 →
  inc c1 k1 local_counts ≫= inc c2 k2 = inc c2 k2 local_counts ≫= inc c1 k1.
Proof.
  intros Hne. unfold inc.
  destruct (local_counts !! _myid c1) as [v1|] eqn:H1;
    destruct (local_counts !! _myid c2) as [v2|] eqn:H2; cbn.
  - rewrite !list_lookup_insert_ne by done. rewrite H1, H2. cbn.
    f_equal. by apply list_insert_insert_ne.
  - rewrite list_lookup_insert_ne by done. by rewrite H2.
  - rewrite list_lookup_insert_ne by done. by rewrite H1.
  - done.
Qed.

(** After construction by the whole team, [get()] returns the total of all
    increments made since, by whichever units, in the order they were
    made. *)
Theorem get_totals_all_increments
    `{!Assoc (=) add, !Comm (=) add, !LeftId (=) zero add}
    (n : nat) (order : list nat) (allocated : list ValueType)
    (incs : list (nat * ValueType)) (reader : SharedCounter) :
  length allocated = n →
  (∀ u, (u < n)%nat → u ∈ order) →
  Forall (λ i, i.1 < n)%nat incs →
  _num_units reader = n →
  ∃ local_counts,
    inc_all n incs (construct_all n order allocated) = Some local_counts ∧
    get reader local_counts = Some (fold_left add (incs.*2) zero).
Proof.
  intros Hlen Hall Hincs Hreader.
  destruct (constructed_counter_is_zero n order allocated reader Hlen Hall
              Hreader) as [-> Hzero].
  assert (Hgen : ∀ local_counts total,
            length local_counts = n →
            get reader local_counts = Some total →
            ∃ local_counts',
              inc_all n incs local_counts = Some local_counts' ∧
              get reader local_counts'
              = Some (fold_left add (incs.*2) total)).
  { clear Hzero. induction Hincs as [|[u k] incs Hu _ IH];
      intros local_counts total Hl Hget.
    - by exists local_counts.
    - destruct (get_after_inc (MkSharedCounter n u) reader k local_counts)
        as (lc' & total' & Hinc & Hlen' & _ & Hget0 & Hget'); [done..|].
      rewrite Hget in Hget0. injection Hget0 as <-.
      destruct (IH lc' (add total k)) as (lc'' & Hrun & Hfinal);
        [congruence|done|].
      exists lc''. cbn. rewrite Hinc. cbn. by rewrite Hrun. }
  apply Hgen; [apply length_replicate|done].
Qed.

End WithValueType.

(** A counter of [int] shared by three units. *)
Lemma constructed_counter_is_zero_witness :
  construct_all 0 3 [2; 0; 1]%nat [17; -4; 99] = replicate 3 0 ∧
  get 0 Z.add (MkSharedCounter 3 1) (construct_all 0 3 [2; 0; 1]%nat [17; -4; 99])
  = Some 0.
Proof.
  apply (@constructed_counter_is_zero Z 0 Z.add Z.add_0_l 3 [2; 0; 1]%nat
           [17; -4; 99] (MkSharedCounter 3 1)).
  - reflexivity.
  - intros u Hu.
    assert (u = 0 ∨ u = 1 ∨ u = 2)%nat as [-> | [-> | ->]] by lia;
      repeat constructor.
  - reflexivity.
Defined.

Lemma get_after_inc_witness :
  ∃ local_counts' total,
    inc Z.add (MkSharedCounter 3 1) 5 [1; 2; 3] = Some local_counts' ∧
    length local_counts' = length [1; 2; 3] ∧
    (∀ u, u ≠ 1%nat → local_counts' !! u = [1; 2; 3] !! u) ∧
    get 0 Z.add (MkSharedCounter 3 2) [1; 2; 3] = Some total ∧
    get 0 Z.add (MkSharedCounter 3 2) local_counts' = Some (total + 5).
Proof.
  apply (@get_after_inc Z 0 Z.add Z.add_assoc Z.add_comm
           (MkSharedCounter 3 1) (MkSharedCounter 3 2) 5 [1; 2; 3]).
  - reflexivity.
  - cbn. lia.
  - reflexivity.
Defined.

Lemma dec_undoes_inc_witness :
  inc Z.add (MkSharedCounter 3 1) 5 [1; 2; 3]
    ≫= dec Z.sub (MkSharedCounter 3 1) 5
  = Some [1; 2; 3].
Proof.
  apply (dec_undoes_inc Z.add Z.sub (MkSharedCounter 3 1) 5 [1; 2; 3]).
  - intros v. lia.
  - cbn. lia.
Defined.

Lemma inc_of_different_units_commute_witness :
  inc Z.add (MkSharedCounter 3 0) 4 [1; 2; 3]
    ≫= inc Z.add (MkSharedCounter 3 2) 6
  = inc Z.add (MkSharedCounter 3 2) 6 [1; 2; 3]
      ≫= inc Z.add (MkSharedCounter 3 0) 4.
Proof.
  apply (inc_of_different_units_commute Z.add (MkSharedCounter 3 0)
           (MkSharedCounter 3 2) 4 6 [1; 2; 3]).
  discriminate.
Defined.

Lemma get_totals_all_increments_witness :
  ∃ local_counts,
    inc_all Z.add 3 [(1%nat, 5); (0%nat, 7); (1%nat, -2)]
      (construct_all 0 3 [0; 1; 2]%nat [17; -4; 99])
    = Some local_counts ∧
    get 0 Z.add (MkSharedCounter 3 2) local_counts
    = Some (fold_left Z.add [5; 7; -2] 0).
Proof.
  apply (@get_totals_all_increments Z 0 Z.add Z.add_assoc Z.add_comm
           Z.add_0_l 3 [0; 1; 2]%nat [17; -4; 99]
           [(1%nat, 5); (0%nat, 7); (1%nat, -2)] (MkSharedCounter 3 2)).
  - reflexivity.
  - intros u Hu.
    assert (u = 0 ∨ u = 1 ∨ u = 2)%nat as [-> | [-> | ->]] by lia;
      repeat constructor.
  - repeat constructor.
  - reflexivity.
Defined.

End SharedCounter.
